(** * deepscm: the variational GMM engine and the conditional SEM model

    A shallow embedding of [models/gmm.py] and of
    [experiments/medical/ukbb/sem_vi/conditional_sem.py].

    Conventions of the embedding.
    - Tensor entries are real numbers ([R]); IEEE rounding, infinities and
      NaN are outside the model.  [torch.digamma] is a parameter.
    - A tensor carries its shape the way a torch tensor does: a 2-d tensor
      is its list of rows together with the size of its last axis, so that
      a tensor with no row still knows how many columns it has.
    - The torch operations are total functions that compute what torch
      computes on operands whose shapes agree; the theorems state the
      shapes they need.  What is modelled as raising is what Python itself
      raises: tuple unpacking, reading an unassigned local, dividing by
      the integer zero.
    - The global random generator is threaded explicitly.
    - [natural_gmm] and [NaturalNormalWishart] are interfaces (their
      modules are not part of the two files embedded here). *)

From Stdlib Require Import Reals Lra Lia List String.
From stdpp Require Import gmap strings.

Set Warnings "-register-all".
Open Scope R_scope.

(** ** Tensors and the torch operations used by the engine *)

Module Torch.

(** A 1-d tensor is the list of its entries. *)
Abbreviation Tensor1 := (list R) (only parsing).

(** [size1] is the size of the last axis, [rows] the slices along axis 0. *)
Record Tensor2 := T2 { size1 : nat; rows : list Tensor1 }.

(** A 3-d tensor is the list of its slices along axis 0, each the list
    of its rows. *)
Abbreviation Tensor3 := (list (list (list R))) (only parsing).

Definition size0 (t : Tensor2) : nat := length (rows t).

(** [t.shape] *)
Definition shape (t : Tensor2) : nat * nat := (size0 t, size1 t).

Definition has_shape1 (v : Tensor1) (K : nat) : Prop := length v = K.

Definition has_shape2 (t : Tensor2) (N D : nat) : Prop :=
  size0 t = N /\ size1 t = D /\ Forall (fun r => length r = D) (rows t).

Definition has_shape3 (t : Tensor3) (K D E : nat) : Prop :=
  length t = K /\
  Forall (fun m => length m = D /\ Forall (fun r => length r = E) m) t.

(** [t[n, k]] and [v[k]] *)
Definition at1 (v : Tensor1) (k : nat) : R := nth k v 0.
Definition at2 (t : Tensor2) (n k : nat) : R := nth k (nth n (rows t) []) 0.
Definition at3 (t : Tensor3) (k d e : nat) : R :=
  nth e (nth d (nth k t []) []) 0.

(** [torch.ones(K)] *)
Definition ones (K : nat) : Tensor1 := repeat 1 K.

(** [v.sum()] *)
Definition sum (v : Tensor1) : R := fold_right Rplus 0 v.

(** contraction of two vectors over their common index *)
Definition dot (a b : Tensor1) : R := sum (zip_with Rmult a b).

(** [torch.einsum('nd,kd->nk', x, e)] *)
Definition einsum_nd_kd_nk (x e : Tensor2) : Tensor2 :=
  T2 (size0 e) (map (fun xn => map (fun ek => dot xn ek) (rows e)) (rows x)).

(** [torch.einsum('nd,kde,ne->nk', x, e, y)] *)
Definition einsum_nd_kde_ne_nk (x : Tensor2) (e : Tensor3) (y : Tensor2)
  : Tensor2 :=
  T2 (length e)
     (zip_with
        (fun xn yn => map (fun ek => dot xn (map (fun ekd => dot ekd yn) ek)) e)
        (rows x) (rows y)).

(** [a + b] for two tensors of the same 2-d shape *)
Definition add22 (a b : Tensor2) : Tensor2 :=
  T2 (size1 a) (zip_with (zip_with Rplus) (rows a) (rows b)).

(** [a - v]: a 1-d tensor broadcast along axis 0 of a 2-d one *)
Definition sub21 (a : Tensor2) (v : Tensor1) : Tensor2 :=
  T2 (size1 a) (map (fun r => zip_with Rminus r v) (rows a)).

(** [v + a]: a 1-d tensor broadcast along axis 0 of a 2-d one *)
Definition add12 (v : Tensor1) (a : Tensor2) : Tensor2 :=
  T2 (size1 a) (map (fun r => zip_with Rplus v r) (rows a)).

(** [v - s] with [s] a 0-d tensor *)
Definition sub10 (v : Tensor1) (s : R) : Tensor1 := map (fun a => a - s) v.

(** [a + b] for two 1-d tensors of the same length *)
Definition add11 (a b : Tensor1) : Tensor1 := zip_with Rplus a b.

(** [t.sum(0)] *)
Definition sum0 (t : Tensor2) : Tensor1 :=
  fold_right (zip_with Rplus) (repeat 0 (size1 t)) (rows t).

(** softmax of one slice: [exp(v_i) / sum_j exp(v_j)] *)
Definition softmax1 (v : Tensor1) : Tensor1 :=
  let e := map exp v in map (fun a => a / sum e) e.

(** [t.softmax(-1)] *)
Definition softmax_last (t : Tensor2) : Tensor2 :=
  T2 (size1 t) (map softmax1 (rows t)).

(** [iter(t)]: a 2-d tensor iterates over its slices along axis 0 *)
Definition iter (t : Tensor2) : list Tensor1 := rows t.

(** [torch.cat([a, b], 1)] *)
Definition cat1 (a b : Tensor2) : Tensor2 :=
  T2 (size1 a + size1 b) (zip_with (@app R) (rows a) (rows b)).

(** an elementwise function *)
Definition pointwise (f : R -> R) (t : Tensor2) : Tensor2 :=
  T2 (size1 t) (map (map f) (rows t)).

End Torch.
Import Torch.

(** [td.Dirichlet]: the object keeps its concentration vector. *)
Record Dirichlet := mkDirichlet { concentration : Tensor1 }.

(** ** Python exceptions and the monad of the engine's entry points *)

Inductive UnpackError :=
| TooManyValues (expected : nat)
| NotEnoughValues (expected got : nat).

Inductive PyError :=
| NameError (name : string)
| UnboundLocalError (name : string)
| ValueError (why : UnpackError)
| ZeroDivisionError.

Inductive Result (A : Type) :=
| Ok (a : A)
| Raise (e : PyError).
Arguments Ok {A} a.
Arguments Raise {A} e.

(** The value [None]. *)
Inductive NoneType := PyNone.

(** A computation reads and advances the random generator [G] and either
    returns or raises. *)
Definition Py (G A : Type) : Type := G -> Result A * G.

Definition ret {G A} (a : A) : Py G A := fun g => (Ok a, g).
Definition raise {G A} (e : PyError) : Py G A := fun g => (Raise e, g).
Definition bind {G A B} (c : Py G A) (k : A -> Py G B) : Py G B :=
  fun g => match c g with
           | (Ok a, g') => k a g'
           | (Raise e, g') => (Raise e, g')
           end.

Declare Scope py_scope.
Delimit Scope py_scope with py.
Notation "'let*' x ':=' c 'in' k" := (bind c (fun x => k))
  (at level 10, x name, c at level 100, k at level 200) : py_scope.
Notation "'let*' ' p ':=' c 'in' k" :=
  (bind c (fun x => match x with p => k end))
  (at level 10, p pattern, c at level 100, k at level 200) : py_scope.

(** [a, b = xs]: unpacking an iterable into two targets. *)
Definition unpack2 {G A} (xs : list A) : Py G (A * A) :=
  match xs with
  | [a; b] => ret (a, b)
  | _ :: _ :: _ :: _ => raise (ValueError (TooManyValues 2))
  | _ => raise (ValueError (NotEnoughValues 2 (length xs)))
  end.

(** Reading a local that the function assigns somewhere but has not
    assigned yet. *)
Definition read_local {G A} (name : string) (v : option A) : Py G A :=
  match v with
  | Some a => ret a
  | None => raise (UnboundLocalError name)
  end.

(** [a / K] for a float [a] and an int [K]. *)
Definition float_div_int {G} (a : R) (K : nat) : Py G R :=
  match K with
  | O => raise ZeroDivisionError
  | S _ => ret (a / INR K)
  end.

(** ** The interfaces the engine is written against *)

Class Engine := {
  (** [torch.digamma] *)
  digamma : R -> R;
  (** [distributions.natural_nw.NaturalNormalWishart] *)
  NaturalNormalWishart : Type;
  expected_stats : NaturalNormalWishart -> Tensor2 * Tensor3 * Tensor1;
  posterior : NaturalNormalWishart -> Tensor2 -> Tensor2 -> NaturalNormalWishart;
  (** [models.natural_gmm] *)
  NaturalGMMPrior : Type;
  mixing_prior : NaturalGMMPrior -> Dirichlet;
  component_prior : NaturalGMMPrior -> NaturalNormalWishart;
  natural_gmm_init :
    forall (K D : nat) (alpha_scale nu_scale mean_scale cov_scale dof_init : R),
      NaturalGMMPrior;
  from_priors : Dirichlet -> NaturalNormalWishart -> NaturalGMMPrior;
  (** the state of torch's global generator, and
      [d.sample((N,))] for a Dirichlet [d] *)
  Generator : Type;
  dirichlet_sample : Dirichlet -> nat -> Generator -> Tensor2 * Generator
}.

(** ** models/gmm.py *)

Section GMM.
Context `{E : Engine}.

Definition _compute_expec_log_lik (x : Tensor2)
    (component_posteriors : NaturalNormalWishart) : Tensor2 :=
  let '(expec_eta1, expec_eta2, expec_log_norm) :=
    expected_stats component_posteriors in
  let prod1 := einsum_nd_kd_nk x expec_eta1 in
  let prod2 := einsum_nd_kde_ne_nk x expec_eta2 x in
  sub21 (add22 prod1 prod2) expec_log_norm.

Definition _compute_expct_log_pi (mixing_posterior : Dirichlet) : Tensor1 :=
  let alpha_k := concentration mixing_posterior in
  sub10 (map digamma alpha_k) (digamma (sum alpha_k)).

Definition e_step (x : Tensor2) (mixing_posterior : Dirichlet)
    (component_posteriors : NaturalNormalWishart) : Tensor2 :=
  let expec_log_lik := _compute_expec_log_lik x component_posteriors in
  let expct_log_pi := _compute_expct_log_pi mixing_posterior in
  let r_nk := softmax_last (add12 expct_log_pi expec_log_lik) in
  r_nk.

Definition m_step (x r_nk : Tensor2) (mixing_prior : Dirichlet)
    (component_prior : NaturalNormalWishart)
  : Dirichlet * NaturalNormalWishart :=
  let N_k := sum0 r_nk in
  let mixing_posterior :=
    mkDirichlet (add11 (concentration mixing_prior) N_k) in
  let component_posteriors := posterior component_prior x r_nk in
  (mixing_posterior, component_posteriors).

(** [dist.sample((N,))], drawing from the global generator. *)
Definition sample (d : Dirichlet) (N : nat) : Py Generator Tensor2 :=
  fun g => let '(t, g') := dirichlet_sample d N g in (Ok t, g').

(** The locals of [run_vem] that the loop assigns.  The two posteriors
    have no value before the first iteration. *)
Record vem_locals := VemLocals {
  r_nk : Tensor2;
  mixing_posterior : option Dirichlet;
  component_posteriors : option NaturalNormalWishart
}.

(** One pass through the body of the [for] loop. *)
Definition vem_body (x : Tensor2) (gmm : NaturalGMMPrior)
    (l : vem_locals) (i : nat) : vem_locals :=
  let '(mp, cp) :=
    m_step x (r_nk l) (mixing_prior gmm) (component_prior gmm) in
  let r := e_step x mp cp in
  VemLocals r (Some mp) (Some cp).

(** [for i in range(n_iter): ...] *)
Definition vem_loop (x : Tensor2) (gmm : NaturalGMMPrior) (n_iter : nat)
    (l : vem_locals) : vem_locals :=
  fold_left (vem_body x gmm) (seq 0 n_iter) l.

Definition run_vem (x : Tensor2) (K n_iter : nat)
  : Py Generator NaturalGMMPrior :=
  (let '(N, D) := shape x in
   let* r_nk := sample (mkDirichlet (ones K)) N in
   let* alpha_scale := float_div_int 0.05 K in
   let gmm := natural_gmm_init K D alpha_scale 0.5 0
                (INR D + 0.5) (INR D + 0.5) in
   let l := vem_loop x gmm n_iter (VemLocals r_nk None None) in
   let* mp := read_local "mixing_posterior" (mixing_posterior l) in
   let* cp := read_local "component_posteriors" (component_posteriors l) in
   ret (from_priors mp cp))%py.

Definition inference (x : Tensor2) (K : nat) : Py Generator NoneType :=
  (let '(N, D) := shape x in
   let* r_nk := sample (mkDirichlet (ones K)) N in
   let* alpha_scale := float_div_int 0.05 K in
   let gmm := natural_gmm_init K D alpha_scale 0.5 0
                (INR D + 0.5) (INR D + 0.5) in
   let '(mixing_posterior, component_posteriors) :=
     m_step x r_nk (mixing_prior gmm) (component_prior gmm) in
   let* '(r_nk_new, pi) :=
     unpack2 (iter (e_step x mixing_posterior component_posteriors)) in
   ret PyNone)%py.

End GMM.

(** ** The engine as the specification words it

    Index-level formulas (Bishop eq. 10.58, 10.64, 10.66), to be compared
    with the tensor code above. *)

(** [sum_{i < n} f i] *)
Definition big_sum (n : nat) (f : nat -> R) : R := sum (map f (seq 0 n)).

Section GMMSpec.
Context `{E : Engine}.

Definition spec_expct_log_pi (K : nat) (alpha : Tensor1) (k : nat) : R :=
  digamma (at1 alpha k) - digamma (big_sum K (at1 alpha)).

Definition spec_expec_log_lik (D : nat) (x expec_eta1 : Tensor2)
    (expec_eta2 : Tensor3) (expec_log_norm : Tensor1) (n k : nat) : R :=
  big_sum D (fun d => at2 x n d * at2 expec_eta1 k d)
  + big_sum D (fun d =>
      big_sum D (fun e => at2 x n d * at3 expec_eta2 k d e * at2 x n e))
  - at1 expec_log_norm k.

Definition spec_softmax_over_k (K : nat) (logit : nat -> R) (k : nat) : R :=
  exp (logit k) / big_sum K (fun j => exp (logit j)).

Definition spec_e_step (N D K : nat) (x : Tensor2) (alpha : Tensor1)
    (expec_eta1 : Tensor2) (expec_eta2 : Tensor3)
    (expec_log_norm : Tensor1) : Tensor2 :=
  T2 K
     (map (fun n =>
        map (spec_softmax_over_k K (fun k =>
               spec_expct_log_pi K alpha k
               + spec_expec_log_lik D x expec_eta1 expec_eta2
                   expec_log_norm n k))
            (seq 0 K))
        (seq 0 N)).

(** [alpha + column-sums(r_nk)] *)
Definition spec_posterior_concentration (N K : nat) (alpha : Tensor1)
    (r_nk : Tensor2) : Tensor1 :=
  map (fun k => at1 alpha k + big_sum N (fun n => at2 r_nk n k)) (seq 0 K).

(** The responsibilities after [i] sweeps (an m-step, then an e-step),
    starting from the initial draw [r0]. *)
Fixpoint spec_sweeps (x : Tensor2) (gmm : NaturalGMMPrior) (r0 : Tensor2)
    (i : nat) : Tensor2 :=
  match i with
  | O => r0
  | S j =>
      let '(mp, cp) :=
        m_step x (spec_sweeps x gmm r0 j)
               (mixing_prior gmm) (component_prior gmm) in
      e_step x mp cp
  end.

(** [init(K, D, alpha_scale=0.05/K, nu_scale=0.5, mean_scale=0,
    cov_scale=D+0.5, dof_init=D+0.5)] *)
Definition spec_init (K D : nat) : NaturalGMMPrior :=
  natural_gmm_init K D (0.05 / INR K) 0.5 0 (INR D + 0.5) (INR D + 0.5).

(** What [run_vem] is said to return for [n_iter >= 1]: the posteriors
    of the last m-step, which sees the responsibilities of the sweep
    before it, wrapped by [from_priors]; one draw from the generator. *)
Definition spec_run_vem (x : Tensor2) (K n_iter : nat) (g : Generator)
  : Result NaturalGMMPrior * Generator :=
  let '(r0, g') :=
    dirichlet_sample (mkDirichlet (ones K)) (size0 x) g in
  let gmm := spec_init K (size1 x) in
  let '(mp, cp) :=
    m_step x (spec_sweeps x gmm r0 (n_iter - 1))
           (mixing_prior gmm) (component_prior gmm) in
  (Ok (from_priors mp cp), g').

(** What [run_vem] is said to return for [n_iter = 0]: the fresh prior,
    wrapped again. *)
Definition spec_run_vem_zero (x : Tensor2) (K : nat) (g : Generator)
  : Result NaturalGMMPrior * Generator :=
  let '(r0, g') :=
    dirichlet_sample (mkDirichlet (ones K)) (size0 x) g in
  let gmm := spec_init K (size1 x) in
  (Ok (from_priors (mixing_prior gmm) (component_prior gmm)), g').

(** The tensor [inference] computes and then unpacks: the result of its
    call to [e_step]. *)
Definition inference_responsibilities (x : Tensor2) (K : nat) (g : Generator)
  : Tensor2 :=
  let '(r0, _) := dirichlet_sample (mkDirichlet (ones K)) (size0 x) g in
  let gmm := spec_init K (size1 x) in
  let '(mp, cp) := m_step x r0 (mixing_prior gmm) (component_prior gmm) in
  e_step x mp cp.

(** The contract of [expected_stats] for [K] components in dimension [D]. *)
Definition stats_shape (cp : NaturalNormalWishart) (K D : nat) : Prop :=
  let '(expec_eta1, expec_eta2, expec_log_norm) := expected_stats cp in
  has_shape2 expec_eta1 K D /\ has_shape3 expec_eta2 K D D /\
  has_shape1 expec_log_norm K.

End GMMSpec.

(** What the interfaces promise about shapes: one Dirichlet draw per
    requested row, [init] builds [K] components in dimension [D], and a
    posterior keeps the shape of its prior. *)
Class EngineContract (E : Engine) : Prop := {
  sample_shape : forall d N g,
    has_shape2 (fst (dirichlet_sample d N g)) N (length (concentration d));
  init_shape : forall K D a nu m c dof,
    has_shape1
      (concentration (mixing_prior (natural_gmm_init K D a nu m c dof))) K /\
    stats_shape (component_prior (natural_gmm_init K D a nu m c dof)) K D;
  posterior_shape : forall cp x r N K D,
    stats_shape cp K D -> has_shape2 x N D -> has_shape2 r N K ->
    stats_shape (posterior cp x r) K D
}.

(** A responsibility array: no negative entry, every slice along the
    component axis sums to one. *)
Definition rows_on_simplex (t : Tensor2) : Prop :=
  Forall (fun r => Forall (fun a => 0 <= a) r /\ sum r = 1) (rows t).

(** ** experiments/medical/ukbb/sem_vi/conditional_sem.py *)

(** *** Transforms *)

(** The learned parameters of a [Spline]: the monotone map they define and
    its inverse. *)
Record SplineWeights := {
  spline_call : R -> R;
  spline_inv : R -> R
}.

(** [pyro.distributions.transforms] *)
Inductive Transform :=
| AffineTransform (loc scale : R)
| ExpTransform
| Spline (input_dim : nat) (w : SplineWeights)
| ComposeTransform (parts : list Transform)
| ComposeTransformModule (parts : list Transform).

(** [t(x)] on one entry: a composition applies its parts first to last. *)
Fixpoint call (t : Transform) (x : R) : R :=
  match t with
  | AffineTransform loc scale => loc + scale * x
  | ExpTransform => exp x
  | Spline _ w => spline_call w x
  | ComposeTransform parts => fold_left (fun acc p => call p acc) parts x
  | ComposeTransformModule parts => fold_left (fun acc p => call p acc) parts x
  end.

(** [t.inv(y)] on one entry: the inverse of a composition applies the
    inverses of its parts last to first. *)
Fixpoint inv (t : Transform) (y : R) : R :=
  match t with
  | AffineTransform loc scale => (y - loc) / scale
  | ExpTransform => ln y
  | Spline _ w => spline_inv w y
  | ComposeTransform parts => fold_right (fun p acc => inv p acc) y parts
  | ComposeTransformModule parts => fold_right (fun p acc => inv p acc) y parts
  end.

(** The transforms of this file act entry by entry. *)
Definition call_tensor (t : Transform) : Tensor2 -> Tensor2 := pointwise (call t).
Definition inv_tensor (t : Transform) : Tensor2 -> Tensor2 := pointwise (inv t).

(** [pyro.nn.DenseNN(input_dim, hidden_dims, param_dims, nonlinearity)];
    the weights are learned. *)
Record DenseNN := {
  nn_input_dim : nat;
  nn_hidden_dims : list nat;
  nn_param_dims : list nat;
  nn_weights : Tensor2 -> list Tensor2
}.

(** A member of the transform list of a conditional flow. *)
Inductive FlowPart :=
| ConditionalAffineTransform (context_nn : DenseNN) (event_dim : nat)
| Unconditional (t : Transform).

(** *** Distributions, as the objects handed to [pyro.sample] *)

Inductive Distribution :=
| Bernoulli (logits : Tensor1)
| Normal (loc scale : Tensor1)
| to_event (d : Distribution) (n : nat)
| TransformedDistribution (base : Distribution) (transforms : list Transform)
  (** [ConditionalTransformedDistribution(base, parts).condition(context)] *)
| ConditionedTransformedDistribution (base : Distribution)
    (parts : list FlowPart) (context : Tensor2).

(** *** Probabilistic programs: a run meets its sample sites in order *)

Inductive Pyro (A : Type) :=
| Return (a : A)
| Sample (name : string) (d : Distribution) (k : Tensor2 -> Pyro A).
Arguments Return {A} a.
Arguments Sample {A} name d k.

(** What one sample site recorded. *)
Record Site := { site_name : string; site_dist : Distribution; site_value : Tensor2 }.

(** A run answers every site from [draw]; it yields the value returned
    and the sites met. *)
Fixpoint run {A} (draw : string -> Distribution -> Tensor2) (p : Pyro A)
  : A * list Site :=
  match p with
  | Return a => (a, [])
  | Sample name d k =>
      let v := draw name d in
      let '(a, tr) := run draw (k v) in
      (a, Build_Site name d v :: tr)
  end.

(** The distribution a site was sampled from, by name. *)
Fixpoint dist_at (name : string) (tr : list Site) : option Distribution :=
  match tr with
  | [] => None
  | s :: tr' =>
      if String.eqb (site_name s) name then Some (site_dist s)
      else dist_at name tr'
  end.

(** *** The model object *)

(** Modelled from the spec: the attributes [BaseVISEM] supplies and
    [pgm_model] reads ([BaseVISEM] is defined in base_sem_experiment.py). *)
Record BaseVISEM := {
  sex_logits : Tensor1;
  age_base_loc : Tensor1;
  age_base_scale : Tensor1;
  ventricle_volume_base_loc : Tensor1;
  ventricle_volume_base_scale : Tensor1;
  brain_volume_base_loc : Tensor1;
  brain_volume_base_scale : Tensor1
}.

(** The attributes [__init__] sets for the three flows (the decoder and
    encoder attributes play no part in [pgm_model]). *)
Record ConditionalVISEM := {
  base : BaseVISEM;
  age_flow_components : Transform;
  age_flow_lognorm : Transform;
  age_flow_constraint_transforms : Transform;
  age_flow_transforms : Transform;
  ventricle_volume_flow_components : FlowPart;
  ventricle_volume_flow_lognorm : Transform;
  ventricle_volume_flow_constraint_transforms : Transform;
  ventricle_volume_flow_transforms : list FlowPart;
  brain_volume_flow_components : FlowPart;
  brain_volume_flow_lognorm : Transform;
  brain_volume_flow_constraint_transforms : Transform;
  brain_volume_flow_transforms : list FlowPart
}.

(** [DenseNN(2, [8, 16], param_dims=[1, 1], nonlinearity=Identity())] *)
Definition volume_net (weights : Tensor2 -> list Tensor2) : DenseNN :=
  {| nn_input_dim := 2; nn_hidden_dims := [8%nat; 16%nat];
     nn_param_dims := [1%nat; 1%nat]; nn_weights := weights |}.

(** [ConditionalVISEM.__init__]: the learned parts are the spline and the
    two context networks. *)
Definition __init__ (b : BaseVISEM) (age_spline : SplineWeights)
    (ventricle_volume_net brain_volume_net : Tensor2 -> list Tensor2)
  : ConditionalVISEM :=
  let age_flow_components := ComposeTransformModule [Spline 1 age_spline] in
  let age_flow_lognorm := AffineTransform 0 1 in
  let age_flow_constraint_transforms :=
    ComposeTransform [age_flow_lognorm; ExpTransform] in
  let age_flow_transforms :=
    ComposeTransform [age_flow_components; age_flow_constraint_transforms] in
  let ventricle_volume_flow_components :=
    ConditionalAffineTransform (volume_net ventricle_volume_net) 0 in
  let ventricle_volume_flow_lognorm := AffineTransform 0 1 in
  let ventricle_volume_flow_constraint_transforms :=
    ComposeTransform [ventricle_volume_flow_lognorm; ExpTransform] in
  let ventricle_volume_flow_transforms :=
    [ventricle_volume_flow_components;
     Unconditional ventricle_volume_flow_constraint_transforms] in
  let brain_volume_flow_components :=
    ConditionalAffineTransform (volume_net brain_volume_net) 0 in
  let brain_volume_flow_lognorm := AffineTransform 0 1 in
  let brain_volume_flow_constraint_transforms :=
    ComposeTransform [brain_volume_flow_lognorm; ExpTransform] in
  let brain_volume_flow_transforms :=
    [brain_volume_flow_components;
     Unconditional brain_volume_flow_constraint_transforms] in
  {| base := b;
     age_flow_components := age_flow_components;
     age_flow_lognorm := age_flow_lognorm;
     age_flow_constraint_transforms := age_flow_constraint_transforms;
     age_flow_transforms := age_flow_transforms;
     ventricle_volume_flow_components := ventricle_volume_flow_components;
     ventricle_volume_flow_lognorm := ventricle_volume_flow_lognorm;
     ventricle_volume_flow_constraint_transforms :=
       ventricle_volume_flow_constraint_transforms;
     ventricle_volume_flow_transforms := ventricle_volume_flow_transforms;
     brain_volume_flow_components := brain_volume_flow_components;
     brain_volume_flow_lognorm := brain_volume_flow_lognorm;
     brain_volume_flow_constraint_transforms :=
       brain_volume_flow_constraint_transforms;
     brain_volume_flow_transforms := brain_volume_flow_transforms |}.

Definition pgm_model (self : ConditionalVISEM)
  : Pyro (Tensor2 * Tensor2 * Tensor2 * Tensor2) :=
  let sex_dist := to_event (Bernoulli (sex_logits (base self))) 1 in
  Sample "sex" sex_dist (fun sex =>
  let age_base_dist :=
    to_event (Normal (age_base_loc (base self)) (age_base_scale (base self))) 1 in
  let age_dist :=
    TransformedDistribution age_base_dist [age_flow_transforms self] in
  Sample "age" age_dist (fun age =>
  let age_ := inv_tensor (age_flow_constraint_transforms self) age in
  let context := cat1 sex age_ in
  let ventricle_volume_base_dist :=
    to_event (Normal (ventricle_volume_base_loc (base self))
                     (ventricle_volume_base_scale (base self))) 1 in
  let ventricle_volume_dist :=
    ConditionedTransformedDistribution ventricle_volume_base_dist
      (ventricle_volume_flow_transforms self) context in
  Sample "ventricle_volume" ventricle_volume_dist (fun ventricle_volume =>
  let brain_volume_base_dist :=
    to_event (Normal (brain_volume_base_loc (base self))
                     (brain_volume_base_scale (base self))) 1 in
  let brain_volume_dist :=
    ConditionedTransformedDistribution brain_volume_base_dist
      (brain_volume_flow_transforms self) context in
  Sample "brain_volume" brain_volume_dist (fun brain_volume =>
  Return (age, sex, ventricle_volume, brain_volume))))).

(** *** The model registry *)

(** A class object, as far as the registry is concerned. *)
Record ClassObject := { __name__ : string; __module__ : string }.

Definition conditional_sem : string :=
  "experiments.medical.ukbb.sem_vi.conditional_sem".

(** [class ConditionalVISEM(BaseVISEM)] *)
Definition ConditionalVISEM_class : ClassObject :=
  {| __name__ := "ConditionalVISEM"; __module__ := conditional_sem |}.

(** The part of the interpreter state the module touches: the registry
    dict of base_sem_experiment, the modules already loaded, and (as a
    history, for counting) the assignments made to the registry. *)
Record Process := {
  MODEL_REGISTRY : gmap string ClassObject;
  sys_modules : gset string;
  registry_writes : list (string * ClassObject)
}.

(** A process in which base_sem_experiment is loaded with registry [reg]
    and conditional_sem is not. *)
Definition start (reg : gmap string ClassObject) : Process :=
  {| MODEL_REGISTRY := reg; sys_modules := ∅; registry_writes := [] |}.

(** [MODEL_REGISTRY[key] = cls] *)
Definition registry_setitem (key : string) (cls : ClassObject)
    (p : Process) : Process :=
  {| MODEL_REGISTRY := <[key := cls]> (MODEL_REGISTRY p);
     sys_modules := sys_modules p;
     registry_writes := registry_writes p ++ [(key, cls)] |}.

(** The module-level statements of conditional_sem.py that touch the
    registry: after the class statement,
    [MODEL_REGISTRY[ConditionalVISEM.__name__] = ConditionalVISEM]. *)
Definition module_body (p : Process) : Process :=
  registry_setitem (__name__ ConditionalVISEM_class) ConditionalVISEM_class p.

(** [import conditional_sem]: the body runs unless the module is loaded. *)
Definition import_module (p : Process) : Process :=
  if decide (conditional_sem ∈ sys_modules p) then p
  else module_body
         {| MODEL_REGISTRY := MODEL_REGISTRY p;
            sys_modules := {[conditional_sem]} ∪ sys_modules p;
            registry_writes := registry_writes p |}.

(** Calling the class [ConditionalVISEM] with its keyword arguments.
    The name is bound by the import.
    Modelled from the spec: [BaseVISEM.__init__] (base_sem_experiment.py),
    called first, supplies attributes and leaves the registry alone. *)
Definition construct (b : BaseVISEM) (age_spline : SplineWeights)
    (ventricle_volume_net brain_volume_net : Tensor2 -> list Tensor2)
    (p : Process) : Result (ConditionalVISEM * Process) :=
  if decide (conditional_sem ∈ sys_modules p)
  then Ok (__init__ b age_spline ventricle_volume_net brain_volume_net, p)
  else Raise (NameError "ConditionalVISEM").

Inductive Action :=
| Import
| Construct (b : BaseVISEM) (age_spline : SplineWeights)
    (ventricle_volume_net brain_volume_net : Tensor2 -> list Tensor2).

Fixpoint run_actions (acts : list Action) (p : Process) : Result Process :=
  match acts with
  | [] => Ok p
  | Import :: acts' => run_actions acts' (import_module p)
  | Construct b w n1 n2 :: acts' =>
      match construct b w n1 n2 p with
      | Ok (_, p') => run_actions acts' p'
      | Raise e => Raise e
      end
  end.

(** ** A small implementation of the interfaces

    It serves to run the engine on concrete inputs: a component object
    that reports fixed statistics, a generator that counts its draws and
    always draws the uniform responsibilities. *)

Module Demo.

Definition uniform_rows (K N : nat) : Tensor2 :=
  T2 K (repeat (repeat (1 / INR K) K) N).

#[global] Instance engine : Engine := {|
  digamma := fun a => ln a - / (2 * a);
  NaturalNormalWishart := Tensor2 * Tensor3 * Tensor1;
  expected_stats := fun nw => nw;
  posterior := fun nw _ _ => nw;
  NaturalGMMPrior := Dirichlet * (Tensor2 * Tensor3 * Tensor1);
  mixing_prior := fst;
  component_prior := snd;
  natural_gmm_init := fun K D alpha_scale _ mean_scale cov_scale _ =>
    (mkDirichlet (repeat alpha_scale K),
     (T2 D (repeat (repeat mean_scale D) K),
      repeat (repeat (repeat cov_scale D) D) K,
      repeat 0 K));
  from_priors := pair;
  Generator := nat;
  dirichlet_sample := fun d N g =>
    (uniform_rows (length (concentration d)) N, S g)
|}.

(** one data point in one dimension *)
Definition x_1x1 : Tensor2 := T2 1 [[0]].
(** two data points in one dimension *)
Definition x_2x1 : Tensor2 := T2 1 [[0]; [1]].

(** two concentrations, and the statistics of two components in one
    dimension *)
Definition alpha2 : Tensor1 := [1; 2].
Definition eta1_2x1 : Tensor2 := T2 1 [[1]; [2]].
Definition eta2_2x1x1 : Tensor3 := [[[-1]]; [[-2]]].
Definition log_norm2 : Tensor1 := [0; 1].
(** responsibilities of two data points for two components *)
Definition r_2x2 : Tensor2 := T2 2 [[1; 0]; [0; 1]].

(** draws for two runs of the prior graph that differ at the site sex *)
Definition draw_zero (name : string) (d : Distribution) : Tensor2 :=
  T2 1 [[0]].
Definition draw_other_sex (name : string) (d : Distribution) : Tensor2 :=
  if String.eqb name "sex" then T2 1 [[1]] else T2 1 [[0]].

Definition base0 : BaseVISEM :=
  {| sex_logits := [0]; age_base_loc := [0]; age_base_scale := [1];
     ventricle_volume_base_loc := [0]; ventricle_volume_base_scale := [1];
     brain_volume_base_loc := [0]; brain_volume_base_scale := [1] |}.

Definition identity_spline : SplineWeights :=
  {| spline_call := fun u => u; spline_inv := fun u => u |}.

Definition visem : ConditionalVISEM :=
  __init__ base0 identity_spline (fun _ => []) (fun _ => []).

End Demo.

(** ** Stacking data *)

(** [torch.cat([a, b], 0)]: the slices of [a] followed by those of [b].
    The engine does not call it; it serves to state how the two steps
    treat a data matrix that arrives in two batches. *)
Definition cat0 (a b : Tensor2) : Tensor2 := T2 (size1 a) (rows a ++ rows b).

(** every entry satisfies [P] *)
Definition all_entries (P : R -> Prop) (t : Tensor2) : Prop :=
  Forall (Forall P) (rows t).

(** ** conditional_sem.py: the image side ([model] and [guide]) *)

(** A batch of images: batch, channel, height, width. *)
Abbreviation Tensor4 := (list (list (list (list R)))) (only parsing).

(** [torch.cat(ts, 1)] for a non-empty list of 2-d tensors. *)
Definition cat1_all (ts : list Tensor2) : Tensor2 :=
  match ts with
  | [] => T2 0 []
  | t :: ts' => fold_left cat1 ts' t
  end.

(** [torch.nn.Conv2d(1, 1, 1)]: one channel in, one out, a 1 by 1
    kernel; every pixel [v] becomes [weight * v + bias]. *)
Record Conv2d_1_1_1 := { conv_weight : R; conv_bias : R }.

Definition conv2d (c : Conv2d_1_1_1) (t : Tensor4) : Tensor4 :=
  map (map (map (map (fun v => conv_weight c * v + conv_bias c)))) t.

(** [arch.medical.Decoder] and [Encoder]: the arguments they are built
    with and the map their learned weights compute. *)
Record Decoder := {
  decoder_num_convolutions : nat;
  decoder_filters : list nat;
  decoder_latent_dim : nat;
  decoder_upconv : bool;
  decoder_forward : Tensor2 -> Tensor4
}.

Record Encoder := {
  encoder_num_convolutions : nat;
  encoder_filters : list nat;
  encoder_latent_dim : nat;
  encoder_forward : Tensor4 -> Tensor2
}.

(** The layers of [latent_layers]. *)
Inductive Layer :=
| Linear (in_features out_features : nat) (weight : Tensor2) (bias : Tensor1)
| ReLU.

(** [distributions.deep.DeepIndepNormal(backbone, hidden_dim, out_dim)] *)
Record DeepIndepNormal := {
  din_backbone : list Layer;
  din_hidden_dim : nat;
  din_out_dim : nat;
  din_heads : Tensor2 -> Tensor2 * Tensor2
}.

(** Transforms of images: [AffineTransform(loc, scale, event_dim)] with a
    location per pixel and one scale, the preprocessing transform of the
    base class, and compositions. *)
Record Preprocess := {
  preprocess_call : Tensor4 -> Tensor4;
  preprocess_inv : Tensor4 -> Tensor4
}.

Inductive ImageTransform :=
| AffineTransformI (loc : Tensor4) (scale : R) (event_dim : nat)
| PreprocessTransform (t : Preprocess)
| ComposeTransformI (parts : list ImageTransform).

Inductive ImageDistribution :=
| NormalI (loc scale : Tensor3)
| to_eventI (d : ImageDistribution) (n : nat)
| TransformedDistributionI (base : ImageDistribution) (t : ImageTransform).

(** The distributions handed to the sample sites of [model] and [guide]. *)
Inductive SiteDistribution :=
| Covariate (d : Distribution)
| Pixels (d : ImageDistribution)
  (** [head.predict(hidden)] *)
| Predicted (head : DeepIndepNormal) (hidden : Tensor2).

(** Programs with sites that draw batches of vectors and sites that draw
    batches of images; a site carries the plates it is met under. *)
Inductive Program (A : Type) :=
| Done (a : A)
| SampleSite (plates : list (string * nat)) (name : string)
    (d : SiteDistribution) (k : Tensor2 -> Program A)
| SampleImage (plates : list (string * nat)) (name : string)
    (d : SiteDistribution) (k : Tensor4 -> Program A).
Arguments Done {A} a.
Arguments SampleSite {A} plates name d k.
Arguments SampleImage {A} plates name d k.

(** Calling a method of the prior graph from [model]. *)
Fixpoint lift {A} (p : Pyro A) : Program A :=
  match p with
  | Return a => Done a
  | Sample name d k => SampleSite [] name (Covariate d) (fun v => lift (k v))
  end.

(** Running [p], then [k] on what it returned. *)
Fixpoint and_then {A B} (p : Program A) (k : A -> Program B) : Program B :=
  match p with
  | Done a => k a
  | SampleSite pl name d c => SampleSite pl name d (fun v => and_then (c v) k)
  | SampleImage pl name d c => SampleImage pl name d (fun v => and_then (c v) k)
  end.

(** What a site of [model] or [guide] recorded. *)
Record SiteRecord := {
  rec_plates : list (string * nat);
  rec_name : string;
  rec_dist : SiteDistribution;
  rec_value : Tensor2 + Tensor4
}.

Fixpoint run_program {A} (draw : string -> SiteDistribution -> Tensor2)
    (draw_image : string -> SiteDistribution -> Tensor4) (p : Program A)
  : A * list SiteRecord :=
  match p with
  | Done a => (a, [])
  | SampleSite pl name d k =>
      let v := draw name d in
      let '(a, tr) := run_program draw draw_image (k v) in
      (a, Build_SiteRecord pl name d (inl v) :: tr)
  | SampleImage pl name d k =>
      let v := draw_image name d in
      let '(a, tr) := run_program draw draw_image (k v) in
      (a, Build_SiteRecord pl name d (inr v) :: tr)
  end.

Fixpoint record_at (name : string) (tr : list SiteRecord) : option SiteRecord :=
  match tr with
  | [] => None
  | s :: tr' =>
      if String.eqb (rec_name s) name then Some s else record_at name tr'
  end.

(** Modelled from the spec: the attributes [BaseVISEM] supplies and
    [__init__], [model] and [guide] read beyond those of [pgm_model]
    ([BaseVISEM] is defined in base_sem_experiment.py). *)
Record BaseImageAttributes := {
  num_convolutions : nat;
  enc_filters : list nat;
  dec_filters : list nat;
  latent_dim : nat;
  use_upconv : bool;
  logstd_init : R;
  z_loc : Tensor1;
  z_scale : Tensor1;
  x_base_loc : Tensor3;
  x_base_scale : Tensor3;
  _get_preprocess_transforms : ImageTransform
}.

(** The attributes [__init__] sets for the decoder and the encoder. *)
Record ImageSide := {
  image_base : BaseImageAttributes;
  decoder : Decoder;
  decoder_mean : Conv2d_1_1_1;
  decoder_logstd : R;
  encoder : Encoder;
  latent_encoder : DeepIndepNormal
}.

(** The decoder and encoder lines of [ConditionalVISEM.__init__]; the
    learned weights are arguments. *)
Definition __init__image (b : BaseImageAttributes)
    (decoder_weights : Tensor2 -> Tensor4) (mean_weights : Conv2d_1_1_1)
    (encoder_weights : Tensor4 -> Tensor2)
    (linear_weight : Tensor2) (linear_bias : Tensor1)
    (head_weights : Tensor2 -> Tensor2 * Tensor2) : ImageSide :=
  let decoder :=
    {| decoder_num_convolutions := num_convolutions b;
       decoder_filters := dec_filters b;
       decoder_latent_dim := latent_dim b + 3;
       decoder_upconv := use_upconv b;
       decoder_forward := decoder_weights |} in
  let decoder_mean := mean_weights in
  let decoder_logstd := 1 * logstd_init b in
  let encoder :=
    {| encoder_num_convolutions := num_convolutions b;
       encoder_filters := enc_filters b;
       encoder_latent_dim := latent_dim b;
       encoder_forward := encoder_weights |} in
  let latent_layers :=
    [Linear (latent_dim b + 3) (latent_dim b) linear_weight linear_bias; ReLU] in
  let latent_encoder :=
    {| din_backbone := latent_layers;
       din_hidden_dim := latent_dim b;
       din_out_dim := latent_dim b;
       din_heads := head_weights |} in
  {| image_base := b; decoder := decoder; decoder_mean := decoder_mean;
     decoder_logstd := decoder_logstd; encoder := encoder;
     latent_encoder := latent_encoder |}.

Definition model (self : ConditionalVISEM) (im : ImageSide)
  : Program (Tensor4 * Tensor2 * Tensor2 * Tensor2 * Tensor2 * Tensor2) :=
  and_then (lift (pgm_model self))
    (fun '(age, sex, ventricle_volume, brain_volume) =>
  let ventricle_volume_ :=
    inv_tensor (ventricle_volume_flow_constraint_transforms self)
               ventricle_volume in
  let brain_volume_ :=
    inv_tensor (brain_volume_flow_constraint_transforms self) brain_volume in
  let age_ := inv_tensor (age_flow_constraint_transforms self) age in
  SampleSite [] "z"
    (Covariate (to_event (Normal (z_loc (image_base im))
                                 (z_scale (image_base im))) 1))
    (fun z =>
  let latent := cat1_all [z; age_; ventricle_volume_; brain_volume_] in
  let x_loc := conv2d (decoder_mean im) (decoder_forward (decoder im) latent) in
  let x_scale := exp (decoder_logstd im) in
  let x_base_dist :=
    to_eventI (NormalI (x_base_loc (image_base im))
                       (x_base_scale (image_base im))) 3 in
  let preprocess_transform := _get_preprocess_transforms (image_base im) in
  let x_dist :=
    TransformedDistributionI x_base_dist
      (ComposeTransformI [AffineTransformI x_loc x_scale 3;
                          preprocess_transform]) in
  SampleImage [] "x" (Pixels x_dist) (fun x =>
  Done (x, z, age, sex, ventricle_volume, brain_volume)))).


(** ** More concrete inputs *)

Module DemoMore.

(** responsibilities of one more data point *)
Definition r_1x2 : Tensor2 := T2 2 [[0; 1]].

(** draws for two runs of the prior graph that differ at the site
    ventricle_volume *)
Definition draw_other_ventricle (name : string) (d : Distribution) : Tensor2 :=
  if String.eqb name "ventricle_volume" then T2 1 [[1]] else T2 1 [[0]].

(** draws for runs of the full model: two columns at the site z, one
    elsewhere; the second run draws another sex *)
Definition draw_site (name : string) (d : SiteDistribution) : Tensor2 :=
  if String.eqb name "z" then T2 2 [[0; 0]] else T2 1 [[1]].
Definition draw_site_other_sex (name : string) (d : SiteDistribution)
  : Tensor2 :=
  if String.eqb name "sex" then T2 1 [[0]] else draw_site name d.
Definition draw_no_image (name : string) (d : SiteDistribution) : Tensor4 := [].

(** one image of one pixel *)
Definition image_1 : Tensor4 := [[[[0]]]].

Definition attributes : BaseImageAttributes :=
  {| num_convolutions := 1; enc_filters := [1%nat]; dec_filters := [1%nat];
     latent_dim := 2; use_upconv := false; logstd_init := 0;
     z_loc := [0; 0]; z_scale := [1; 1];
     x_base_loc := [[[0]]]; x_base_scale := [[[1]]];
     _get_preprocess_transforms :=
       PreprocessTransform
         {| preprocess_call := fun t => t; preprocess_inv := fun t => t |} |}.

Definition image_side : ImageSide :=
  __init__image attributes
    (fun _ => image_1) {| conv_weight := 1; conv_bias := 0 |}
    (fun _ => T2 2 [[0; 0]]) (T2 5 []) []
    (fun h => (h, h)).

End DemoMore.

(** * Properties *)

(** ** Lists and sums *)

Lemma zip_with_map_diag {A B C D} (f : B -> C -> D) (g : A -> B)
    (h : A -> A -> C) (l : list A) :
  zip_with f (map g l) (zip_with h l l) = map (fun a => f (g a) (h a a)) l.
Proof. induction l as [|a l IH]; simpl; [reflexivity | now rewrite IH]. Qed.

Lemma nth_zip_with_R (f : R -> R -> R) (a b : list R) (i : nat) :
  f 0 0 = 0 -> length a = length b ->
  nth i (zip_with f a b) 0 = f (nth i a 0) (nth i b 0).
Proof.
  intros Hf. revert b i.
  induction a as [|u a IH]; intros [|v b] i Hlen; simpl in *; try discriminate.
  - destruct i; now rewrite Hf.
  - destruct i; [reflexivity | apply IH; lia].
Qed.

Lemma map_nth_seq {A B} (f : A -> B) (l : list A) (d : A) :
  map f l = map (fun i => f (nth i l d)) (seq 0 (length l)).
Proof.
  induction l as [|a l IH]; simpl; [reflexivity |].
  f_equal. rewrite <- seq_shift, map_map. exact IH.
Qed.

Lemma big_sum_S (n : nat) (f : nat -> R) :
  big_sum (S n) f = f 0%nat + big_sum n (fun i => f (S i)).
Proof.
  unfold big_sum. simpl. f_equal. now rewrite <- seq_shift, map_map.
Qed.

Lemma big_sum_ext (n : nat) (f g : nat -> R) :
  (forall i, (i < n)%nat -> f i = g i) -> big_sum n f = big_sum n g.
Proof.
  intros H. unfold big_sum. f_equal. apply map_ext_in.
  intros i Hi. apply in_seq in Hi. apply H. lia.
Qed.

Lemma big_sum_zero (n : nat) : big_sum n (fun _ => 0) = 0.
Proof.
  induction n as [|n IH]; [reflexivity |].
  rewrite big_sum_S, IH. lra.
Qed.

Lemma big_sum_scal (n : nat) (c : R) (f : nat -> R) :
  c * big_sum n f = big_sum n (fun i => c * f i).
Proof.
  revert f. induction n as [|n IH]; intros f.
  - unfold big_sum. simpl. lra.
  - rewrite !big_sum_S, <- IH. lra.
Qed.

Lemma sum_big_sum (l : list R) :
  sum l = big_sum (length l) (fun i => nth i l 0).
Proof.
  unfold big_sum. rewrite <- (map_nth_seq (fun a => a) l 0).
  now rewrite map_id.
Qed.

Lemma dot_big_sum (a b : list R) (D : nat) :
  length a = D -> length b = D ->
  dot a b = big_sum D (fun d => nth d a 0 * nth d b 0).
Proof.
  intros Ha Hb. unfold dot. rewrite sum_big_sum.
  rewrite length_zip_with_l_eq by lia. rewrite Ha.
  apply big_sum_ext. intros i _. apply nth_zip_with_R; [lra | lia].
Qed.

Lemma sum_div (l : list R) (s : R) :
  sum (map (fun a => a / s) l) = sum l / s.
Proof.
  induction l as [|a l IH]; simpl.
  - unfold Rdiv. lra.
  - fold (sum (map (fun a => a / s) l)). fold (sum l). rewrite IH.
    unfold Rdiv. lra.
Qed.

Lemma sum_exp_pos (l : list R) : l <> [] -> 0 < sum (map exp l).
Proof.
  induction l as [|a l IH]; intros Hne; [congruence |].
  simpl. fold (sum (map exp l)). pose proof (exp_pos a).
  destruct l as [|b l]; [simpl; lra |].
  assert (0 < sum (map exp (b :: l))) by (apply IH; congruence). lra.
Qed.

(** ** The E-step *)

Section EStep.
Context `{E : Engine}.

(** The unnormalised log-responsibilities of one data point. *)
Lemma e_step_rows x alpha cp e1 e2 lognorm :
  expected_stats cp = (e1, e2, lognorm) ->
  rows (e_step x (mkDirichlet alpha) cp) =
  map (fun xn =>
         softmax1
           (zip_with Rplus
              (sub10 (map digamma alpha) (digamma (sum alpha)))
              (zip_with Rminus
                 (zip_with Rplus
                    (map (fun ek => dot xn ek) (rows e1))
                    (map (fun ek => dot xn (map (fun ekd => dot ekd xn) ek)) e2))
                 lognorm)))
      (rows x).
Proof.
  intros Hst. unfold e_step, _compute_expec_log_lik, _compute_expct_log_pi.
  rewrite Hst. simpl. rewrite zip_with_map_diag, !map_map. reflexivity.
Qed.

Lemma e_step_size1 x mp cp :
  size1 (e_step x mp cp) = size0 (fst (fst (expected_stats cp))).
Proof.
  unfold e_step, _compute_expec_log_lik.
  destruct (expected_stats cp) as [[e1 e2] lognorm]. reflexivity.
Qed.

Lemma e_step_size0 x mp cp : size0 (e_step x mp cp) = size0 x.
Proof.
  destruct mp as [alpha].
  destruct (expected_stats cp) as [[e1 e2] lognorm] eqn:Hst.
  unfold size0. rewrite (e_step_rows _ _ _ _ _ _ Hst).
  now rewrite length_map.
Qed.

Lemma softmax1_length v : length (softmax1 v) = length v.
Proof. unfold softmax1. now rewrite !length_map. Qed.

Lemma softmax1_simplex v :
  v <> [] -> Forall (fun a => 0 <= a) (softmax1 v) /\ sum (softmax1 v) = 1.
Proof.
  intros Hne. pose proof (sum_exp_pos v Hne) as Hpos. unfold softmax1. split.
  - apply List.Forall_forall. intros a Ha.
    apply in_map_iff in Ha as (b & <- & Hb).
    apply in_map_iff in Hb as (c & <- & _).
    pose proof (exp_pos c).
    apply Rlt_le, Rdiv_lt_0_compat; assumption.
  - rewrite sum_div. field. lra.
Qed.

(** The logits of one data point have one entry per component. *)
Lemma logits_length (K : nat) (alpha lognorm p1 p2 : list R) (s : R) :
  length alpha = K -> length lognorm = K -> length p1 = K -> length p2 = K ->
  length (zip_with Rplus (sub10 (map digamma alpha) s)
            (zip_with Rminus (zip_with Rplus p1 p2) lognorm)) = K.
Proof.
  intros Ha Hl H1 H2. unfold sub10.
  rewrite !length_zip_with, !length_map. lia.
Qed.

Lemma e_step_shape x alpha cp N D K :
  has_shape2 x N D -> has_shape1 alpha K -> stats_shape cp K D ->
  has_shape2 (e_step x (mkDirichlet alpha) cp) N K.
Proof.
  intros (HN & HD & Hrows) Ha Hst. unfold stats_shape in Hst.
  destruct (expected_stats cp) as [[e1 e2] lognorm] eqn:Hes.
  destruct Hst as ((HK1 & HD1 & Hr1) & (HK2 & Hr2) & HKl).
  repeat split.
  - now rewrite e_step_size0.
  - rewrite e_step_size1, Hes. exact HK1.
  - rewrite (e_step_rows _ _ _ _ _ _ Hes). apply List.Forall_forall.
    intros r Hr. apply in_map_iff in Hr as (xn & <- & _).
    rewrite softmax1_length.
    apply logits_length; rewrite ?length_map; assumption.
Qed.

End EStep.

(** C7.  For a data matrix of shape (N, D), a mixing posterior with K
    concentrations and component posteriors whose expected statistics
    have the shapes of K components in dimension D, with N >= 1 and
    K >= 1: the array [e_step] returns has shape (N, K), none of its
    entries is negative and each of its rows sums to 1. *)
Theorem e_step_rows_on_simplex `{E : Engine} (x : Tensor2)
    (mixing_posterior : Dirichlet) (component_posteriors : NaturalNormalWishart)
    (N D K : nat) :
  (1 <= N)%nat -> (1 <= K)%nat ->
  has_shape2 x N D ->
  has_shape1 (concentration mixing_posterior) K ->
  stats_shape component_posteriors K D ->
  has_shape2 (e_step x mixing_posterior component_posteriors) N K /\
  rows_on_simplex (e_step x mixing_posterior component_posteriors).
Proof.
  intros _ HK Hx Ha Hst. destruct mixing_posterior as [alpha]. simpl in Ha.
  pose proof (e_step_shape x alpha component_posteriors N D K Hx Ha Hst)
    as Hshape.
  split; [exact Hshape |].
  unfold rows_on_simplex.
  destruct (expected_stats component_posteriors) as [[e1 e2] lognorm] eqn:Hes.
  destruct Hshape as (_ & _ & Hlen).
  rewrite (e_step_rows _ _ _ _ _ _ Hes) in *.
  apply List.Forall_forall. intros r Hr.
  pose proof (proj1 (List.Forall_forall _ _) Hlen r Hr) as Hr_len.
  apply in_map_iff in Hr as (xn & <- & _).
  apply softmax1_simplex. intros Hnil.
  rewrite softmax1_length, Hnil in Hr_len. simpl in Hr_len. lia.
Qed.

(** ** The E-step against its index-level formula *)

(** Arithmetic on sizes. *)
Ltac shape_lia :=
  unfold size0, has_shape1 in *; simpl in *; lia.

Lemma nth_map_lt {A B} (f : A -> B) (l : list A) (k : nat) (d : A) (d' : B) :
  (k < length l)%nat -> nth k (map f l) d' = f (nth k l d).
Proof.
  intros Hk. rewrite (nth_indep _ d' (f d)) by now rewrite length_map.
  apply map_nth.
Qed.

Lemma Forall_nth_lt {A} (P : A -> Prop) (l : list A) (k : nat) (d : A) :
  Forall P l -> (k < length l)%nat -> P (nth k l d).
Proof.
  intros H Hk. apply (proj1 (List.Forall_forall P l) H). now apply nth_In.
Qed.

Section EStepSpec.
Context `{E : Engine}.

Lemma spec_softmax_ext (K : nat) (f g : nat -> R) (k : nat) :
  (forall j, (j < K)%nat -> f j = g j) -> (k < K)%nat ->
  spec_softmax_over_k K f k = spec_softmax_over_k K g k.
Proof.
  intros Hfg Hk. unfold spec_softmax_over_k. rewrite (Hfg k Hk). f_equal.
  apply big_sum_ext. intros j Hj. now rewrite Hfg.
Qed.

Lemma softmax1_spec (v : list R) (K : nat) :
  length v = K ->
  softmax1 v = map (spec_softmax_over_k K (fun k => nth k v 0)) (seq 0 K).
Proof.
  intros <-. unfold softmax1, spec_softmax_over_k.
  rewrite map_map. rewrite (map_nth_seq _ v 0).
  apply map_ext. intros k. f_equal.
  unfold big_sum. now rewrite <- (map_nth_seq exp v 0).
Qed.

(** Entry [k] of the first contraction. *)
Lemma prod1_entry (xn : list R) (e1 : Tensor2) (K D k : nat) :
  length xn = D -> has_shape2 e1 K D -> (k < K)%nat ->
  nth k (map (fun ek => dot xn ek) (rows e1)) 0 =
  big_sum D (fun d => nth d xn 0 * nth d (nth k (rows e1) []) 0).
Proof.
  intros Hxn (HK & _ & Hrows) Hk. unfold size0 in HK.
  rewrite (nth_map_lt _ _ _ []) by shape_lia.
  apply dot_big_sum; [exact Hxn |].
  apply (Forall_nth_lt (fun r => length r = D)); [exact Hrows | shape_lia].
Qed.

(** Entry [k] of the second contraction. *)
Lemma prod2_entry (xn : list R) (e2 : Tensor3) (K D k : nat) :
  length xn = D -> has_shape3 e2 K D D -> (k < K)%nat ->
  nth k (map (fun ek => dot xn (map (fun ekd => dot ekd xn) ek)) e2) 0 =
  big_sum D (fun d =>
    big_sum D (fun e =>
      nth d xn 0 * nth e (nth d (nth k e2 []) []) 0 * nth e xn 0)).
Proof.
  intros Hxn (HK & Hmats) Hk.
  rewrite (nth_map_lt _ _ _ []) by shape_lia.
  pose proof (Forall_nth_lt _ e2 k [] Hmats ltac:(shape_lia)) as (Hd & Hek).
  simpl in Hd, Hek.
  rewrite (dot_big_sum _ _ D) by (rewrite ?length_map; assumption).
  apply big_sum_ext. intros d Hd_lt.
  rewrite (nth_map_lt _ _ _ []) by shape_lia.
  rewrite (dot_big_sum _ _ D).
  - rewrite big_sum_scal. apply big_sum_ext. intros e _. ring.
  - apply (Forall_nth_lt (fun r => length r = D)); [exact Hek | shape_lia].
  - exact Hxn.
Qed.

(** Entry [k] of the logits of data point [n]. *)
Lemma logits_entry x alpha e1 e2 lognorm (N D K n k : nat) :
  has_shape2 x N D -> has_shape1 alpha K ->
  has_shape2 e1 K D -> has_shape3 e2 K D D -> has_shape1 lognorm K ->
  (n < N)%nat -> (k < K)%nat ->
  nth k
    (zip_with Rplus
       (sub10 (map digamma alpha) (digamma (sum alpha)))
       (zip_with Rminus
          (zip_with Rplus
             (map (fun ek => dot (nth n (rows x) []) ek) (rows e1))
             (map (fun ek => dot (nth n (rows x) [])
                               (map (fun ekd => dot ekd (nth n (rows x) [])) ek))
                  e2))
          lognorm)) 0 =
  spec_expct_log_pi K alpha k
  + spec_expec_log_lik D x e1 e2 lognorm n k.
Proof.
  intros (HN & HD & Hrows) Ha He1 He2 Hl Hn Hk.
  assert (Hxn : length (nth n (rows x) []) = D).
  { apply (Forall_nth_lt (fun r => length r = D)); [exact Hrows|].
    unfold size0 in HN. shape_lia. }
  pose proof He1 as (HK1 & _ & _). pose proof He2 as (HK2 & _).
  unfold size0 in HK1. unfold has_shape1 in Ha, Hl.
  rewrite nth_zip_with_R; [| lra |].
  2:{ unfold sub10. rewrite !length_zip_with, !length_map. shape_lia. }
  rewrite nth_zip_with_R; [| lra |].
  2:{ rewrite !length_zip_with, !length_map. shape_lia. }
  rewrite nth_zip_with_R; [| lra |].
  2:{ rewrite !length_map. shape_lia. }
  rewrite (prod1_entry _ _ K D) by assumption.
  rewrite (prod2_entry _ _ K D) by assumption.
  unfold sub10. rewrite map_map.
  rewrite (nth_map_lt _ _ _ 0) by shape_lia.
  unfold spec_expct_log_pi, spec_expec_log_lik, at1, at2, at3.
  rewrite (sum_big_sum alpha), Ha. reflexivity.
Qed.

End EStepSpec.

(** C4.  For a data matrix [x] of shape (N, D), a mixing posterior with
    concentration vector [alpha] of length K and component posteriors
    whose [expected_stats()] is (expec_eta1 : K by D, expec_eta2 : K by D
    by D, expec_log_norm : K), [e_step] returns the softmax over the
    component axis of expct_log_pi + expec_log_lik, with
    expct_log_pi[k] = digamma(alpha[k]) - digamma(sum of alpha) and
    expec_log_lik[n,k] = sum_d x[n,d] eta1[k,d]
    + sum_{d,e} x[n,d] eta2[k,d,e] x[n,e] - expec_log_norm[k]. *)
Theorem e_step_is_softmax_of_expected_logs `{E : Engine} (x : Tensor2)
    (alpha : Tensor1) (component_posteriors : NaturalNormalWishart)
    (expec_eta1 : Tensor2) (expec_eta2 : Tensor3) (expec_log_norm : Tensor1)
    (N D K : nat) :
  has_shape2 x N D ->
  has_shape1 alpha K ->
  expected_stats component_posteriors =
    (expec_eta1, expec_eta2, expec_log_norm) ->
  has_shape2 expec_eta1 K D ->
  has_shape3 expec_eta2 K D D ->
  has_shape1 expec_log_norm K ->
  e_step x (mkDirichlet alpha) component_posteriors =
  spec_e_step N D K x alpha expec_eta1 expec_eta2 expec_log_norm.
Proof.
  intros Hx Ha Hes He1 He2 Hl.
  pose proof (e_step_rows x alpha _ _ _ _ Hes) as Hrows.
  pose proof (e_step_size1 x (mkDirichlet alpha) component_posteriors) as Hs1.
  rewrite Hes in Hs1. cbn [fst] in Hs1.
  destruct (e_step x (mkDirichlet alpha) component_posteriors) as [s1 rs].
  cbn [rows size1] in Hrows, Hs1. subst s1 rs. unfold spec_e_step.
  pose proof Hx as (HN & _ & _). pose proof He1 as (HK1 & _ & _).
  rewrite HK1. f_equal.
  rewrite (map_nth_seq _ (rows x) []). unfold size0 in HN. rewrite HN.
  apply map_ext_in. intros n Hn. apply in_seq in Hn.
  rewrite (softmax1_spec _ K).
  - apply map_ext_in. intros k Hk. apply in_seq in Hk.
    apply spec_softmax_ext; [| shape_lia].
    intros j Hj.
    apply (logits_entry x alpha expec_eta1 expec_eta2 expec_log_norm N D K);
      first [assumption | shape_lia].
  - pose proof He2 as (HK2 & _).
    apply logits_length; rewrite ?length_map; assumption.
Qed.

(** ** The M-step *)

Lemma list_nth_seq (l : list R) (K : nat) :
  length l = K -> l = map (fun k => nth k l 0) (seq 0 K).
Proof.
  intros <-. rewrite <- (map_nth_seq (fun a => a) l 0). now rewrite map_id.
Qed.

Lemma column_sums_length (K : nat) (rs : list (list R)) :
  Forall (fun r => length r = K) rs ->
  length (fold_right (zip_with Rplus) (repeat 0 K) rs) = K.
Proof.
  induction 1 as [|r rs Hr _ IH]; simpl.
  - apply repeat_length.
  - rewrite length_zip_with. lia.
Qed.

Lemma column_sums_nth (K : nat) (rs : list (list R)) (k : nat) :
  Forall (fun r => length r = K) rs ->
  nth k (fold_right (zip_with Rplus) (repeat 0 K) rs) 0 =
  big_sum (length rs) (fun n => nth k (nth n rs []) 0).
Proof.
  induction 1 as [|r rs Hr Hrs IH].
  - simpl. unfold big_sum. simpl. apply nth_repeat.
  - cbn [fold_right length]. rewrite big_sum_S.
    rewrite nth_zip_with_R; [| lra |].
    + rewrite IH. reflexivity.
    + rewrite column_sums_length by assumption. exact Hr.
Qed.

(** C5.  For a mixing prior with concentration vector [alpha] of length K
    and a responsibility matrix [r_nk] of shape (N, K), the mixing
    posterior [m_step] returns is the Dirichlet whose concentration is
    alpha plus the column sums of r_nk, and the component posteriors it
    returns are [component_prior.posterior(x, r_nk)]. *)
Theorem m_step_adds_column_sums `{E : Engine} (x r_nk : Tensor2)
    (alpha : Tensor1) (component_prior : NaturalNormalWishart) (N K : nat) :
  has_shape1 alpha K ->
  has_shape2 r_nk N K ->
  m_step x r_nk (mkDirichlet alpha) component_prior =
  (mkDirichlet (spec_posterior_concentration N K alpha r_nk),
   posterior component_prior x r_nk).
Proof.
  intros Ha (HN & HK & Hrows). unfold m_step. f_equal. f_equal.
  cbn [concentration]. unfold add11, sum0, spec_posterior_concentration.
  rewrite HK. unfold has_shape1 in Ha.
  pose proof (column_sums_length K (rows r_nk) Hrows) as Hlen.
  rewrite (list_nth_seq (zip_with Rplus alpha _) K)
    by (rewrite length_zip_with; lia).
  apply map_ext. intros k.
  rewrite nth_zip_with_R; [| lra | lia].
  rewrite column_sums_nth by assumption.
  unfold at1, at2, size0 in *. now rewrite HN.
Qed.

(** ** The entry points *)

Lemma unpack2_short {G A} (xs : list A) (g : G) :
  (length xs < 2)%nat ->
  unpack2 xs g = (Raise (ValueError (NotEnoughValues 2 (length xs))), g).
Proof.
  destruct xs as [|a [|b xs]]; simpl; intros H; try reflexivity; lia.
Qed.

Lemma unpack2_long {G A} (xs : list A) (g : G) :
  (2 < length xs)%nat ->
  unpack2 xs g = (Raise (ValueError (TooManyValues 2)), g).
Proof.
  destruct xs as [|a [|b [|c xs]]]; simpl; intros H; try reflexivity; lia.
Qed.

Lemma unpack2_pair {G A} (xs : list A) (g : G) :
  length xs = 2%nat ->
  exists a b, unpack2 xs g = (Ok (a, b), g).
Proof.
  destruct xs as [|a [|b [|c xs]]]; simpl; intros H; try discriminate.
  now exists a, b.
Qed.

Section EntryPoints.
Context `{E : Engine}.

Lemma float_div_int_pos (a : R) (K : nat) (g : Generator) :
  (1 <= K)%nat -> float_div_int a K g = (Ok (a / INR K), g).
Proof. destruct K; [lia | reflexivity]. Qed.

(** [inference] up to its last statement. *)
Lemma inference_eval (x : Tensor2) (K : nat) (g : Generator) :
  (1 <= K)%nat ->
  inference x K g =
  bind (unpack2 (iter (inference_responsibilities x K g)))
       (fun _ => ret PyNone)
       (snd (dirichlet_sample (mkDirichlet (ones K)) (size0 x) g)).
Proof.
  intros HK. unfold inference, inference_responsibilities, shape, bind, sample.
  destruct (dirichlet_sample (mkDirichlet (ones K)) (size0 x) g) as [r0 g'].
  rewrite float_div_int_pos by exact HK. fold (spec_init K (size1 x)).
  cbn [snd].
  destruct (m_step x r0 _ _) as [mp cp].
  destruct (unpack2 _ g') as [[[a b]|e] g'']; reflexivity.
Qed.

Lemma inference_responsibilities_size0 (x : Tensor2) (K : nat) (g : Generator) :
  size0 (inference_responsibilities x K g) = size0 x.
Proof.
  unfold inference_responsibilities.
  destruct (dirichlet_sample _ _ g) as [r0 g'].
  destruct (m_step x r0 _ _) as [mp cp]. apply e_step_size0.
Qed.

(** What [inference] does, by the number of rows of its data. *)
Lemma inference_outcome (x : Tensor2) (K : nat) (g : Generator) :
  (1 <= K)%nat ->
  inference x K g =
  (match size0 x with
   | 2%nat => Ok PyNone
   | S (S (S _)) => Raise (ValueError (TooManyValues 2))
   | n => Raise (ValueError (NotEnoughValues 2 n))
   end,
   snd (dirichlet_sample (mkDirichlet (ones K)) (size0 x) g)).
Proof.
  intros HK. rewrite inference_eval by exact HK.
  pose proof (inference_responsibilities_size0 x K g) as Hlen.
  unfold size0 in Hlen. unfold bind, iter.
  set (g' := snd _). set (rs := rows (inference_responsibilities x K g)) in *.
  destruct (size0 x) as [|[|[|n]]] eqn:HN; unfold size0 in HN; rewrite HN in Hlen.
  - rewrite unpack2_short by lia. now rewrite Hlen.
  - rewrite unpack2_short by lia. now rewrite Hlen.
  - destruct (unpack2_pair rs g' Hlen) as (a & b & ->). reflexivity.
  - rewrite unpack2_long by lia. reflexivity.
Qed.

(** The loop of [run_vem], one iteration at a time. *)
Lemma vem_loop_S x gmm n l :
  vem_loop x gmm (S n) l = vem_body x gmm (vem_loop x gmm n l) n.
Proof.
  unfold vem_loop. rewrite seq_S, fold_left_app. reflexivity.
Qed.

Lemma vem_loop_r_nk x gmm n r0 mp0 cp0 :
  r_nk (vem_loop x gmm n (VemLocals r0 mp0 cp0)) = spec_sweeps x gmm r0 n.
Proof.
  induction n as [|n IH]; [reflexivity |].
  rewrite vem_loop_S. unfold vem_body. rewrite IH. cbn [spec_sweeps].
  destruct (m_step x (spec_sweeps x gmm r0 n)
              (mixing_prior gmm) (component_prior gmm)) as [mp cp].
  reflexivity.
Qed.

Lemma vem_loop_posteriors x gmm n r0 mp0 cp0 :
  let l := vem_loop x gmm (S n) (VemLocals r0 mp0 cp0) in
  let mc := m_step x (spec_sweeps x gmm r0 n)
              (mixing_prior gmm) (component_prior gmm) in
  mixing_posterior l = Some (fst mc) /\ component_posteriors l = Some (snd mc).
Proof.
  cbv zeta. rewrite vem_loop_S. unfold vem_body. rewrite vem_loop_r_nk.
  destruct (m_step x (spec_sweeps x gmm r0 n)
              (mixing_prior gmm) (component_prior gmm)) as [mp cp].
  now split.
Qed.

(** [run_vem] up to the reads of its [return] statement. *)
Lemma run_vem_eval (x : Tensor2) (K n_iter : nat) (g : Generator) :
  (1 <= K)%nat ->
  run_vem x K n_iter g =
  let '(r0, g') := dirichlet_sample (mkDirichlet (ones K)) (size0 x) g in
  let l := vem_loop x (spec_init K (size1 x)) n_iter (VemLocals r0 None None) in
  (let* mp := read_local "mixing_posterior" (mixing_posterior l) in
   let* cp := read_local "component_posteriors" (component_posteriors l) in
   ret (from_priors mp cp))%py g'.
Proof.
  intros HK. unfold run_vem, shape, sample.
  unfold bind at 1.
  destruct (dirichlet_sample (mkDirichlet (ones K)) (size0 x) g) as [r0 g'].
  unfold bind at 1. rewrite float_div_int_pos by exact HK. reflexivity.
Qed.

End EntryPoints.

Lemma inference_responsibilities_shape `{E : Engine} `{!EngineContract E}
    (x : Tensor2) (N D K : nat) (g : Generator) :
  has_shape2 x N D ->
  has_shape2 (inference_responsibilities x K g) N K.
Proof.
  intros Hx. pose proof Hx as (HN & HD & _).
  unfold inference_responsibilities, spec_init. rewrite HN, HD.
  pose proof (sample_shape (mkDirichlet (ones K)) N g) as Hr0.
  destruct (dirichlet_sample (mkDirichlet (ones K)) N g) as [r0 g'].
  cbn [fst concentration] in Hr0. unfold ones in Hr0.
  rewrite repeat_length in Hr0.
  destruct (init_shape K D (0.05 / INR K) 0.5 0 (INR D + 0.5) (INR D + 0.5))
    as (Halpha & Hprior).
  set (gmm := natural_gmm_init _ _ _ _ _ _ _) in *.
  unfold m_step. apply (e_step_shape x _ _ N D K).
  - exact Hx.
  - destruct Hr0 as (_ & Hs1 & Hrows). unfold has_shape1, add11, sum0 in *.
    rewrite length_zip_with, Hs1, column_sums_length by exact Hrows. lia.
  - apply (posterior_shape _ _ _ N K D); assumption.
Qed.

(** C3.  For a data matrix of shape (N, D) and K >= 1, [inference] binds
    [pi] by unpacking the (N, K) tensor [e_step] returns: with fewer or
    more than two rows the unpacking raises its length-mismatch error,
    with exactly two rows the call completes and returns None; it never
    raises an undefined-name error. *)
Theorem inference_unpacks_e_step_result `{E : Engine} `{!EngineContract E}
    (x : Tensor2) (N D K : nat) (g : Generator) :
  has_shape2 x N D -> (1 <= K)%nat ->
  let g' := snd (dirichlet_sample (mkDirichlet (ones K)) N g) in
  has_shape2 (inference_responsibilities x K g) N K /\
  inference x K g =
    bind (unpack2 (iter (inference_responsibilities x K g)))
         (fun _ => ret PyNone) g' /\
  ((N < 2)%nat ->
     inference x K g = (Raise (ValueError (NotEnoughValues 2 N)), g')) /\
  ((2 < N)%nat ->
     inference x K g = (Raise (ValueError (TooManyValues 2)), g')) /\
  (N = 2%nat -> inference x K g = (Ok PyNone, g')) /\
  (forall name, fst (inference x K g) <> Raise (NameError name)).
Proof.
  intros Hx HK g'. pose proof Hx as (HN & _ & _). subst g'.
  split; [now apply (inference_responsibilities_shape x N D K g) |].
  split; [rewrite <- HN; now apply inference_eval |].
  rewrite (inference_outcome x K g HK), HN.
  repeat split.
  - intros Hlt. destruct N as [|[|N]]; [reflexivity | reflexivity | lia].
  - intros Hgt. destruct N as [|[|[|N]]]; [lia | lia | lia | reflexivity].
  - intros ->. reflexivity.
  - intros name. destruct N as [|[|[|N]]]; discriminate.
Qed.

(** C1, as the code has it.  For a data matrix with N >= 1 rows, N other
    than two, [inference(x, 2)] fails in the unpacking that binds [pi],
    with a length-mismatch error; for no data matrix does it raise an
    undefined-name error. *)
Theorem inference_two_components_fails_unpacking `{E : Engine}
    (x : Tensor2) (N D : nat) (g : Generator) :
  has_shape2 x N D -> (1 <= N)%nat -> N <> 2%nat ->
  inference x 2 g =
    (Raise (ValueError
              (if (N <? 2)%nat then NotEnoughValues 2 N else TooManyValues 2)),
     snd (dirichlet_sample (mkDirichlet (ones 2)) N g)) /\
  (forall name, fst (inference x 2 g) <> Raise (NameError name)).
Proof.
  intros (HN & _ & _) H1 H2.
  rewrite (inference_outcome x 2 g) by lia. rewrite HN.
  destruct N as [|[|[|N]]]; try lia; (split; [reflexivity | discriminate]).
Qed.

(** C2, the code at zero iterations.  With K >= 1, [run_vem(x, K, 0)]
    reaches its [return] with the two posteriors unassigned and raises
    UnboundLocalError on the first one it reads; it does not return the
    wrapped fresh prior. *)
Theorem run_vem_zero_iterations_unbound `{E : Engine}
    (x : Tensor2) (K : nat) (g : Generator) :
  (1 <= K)%nat ->
  run_vem x K 0 g =
    (Raise (UnboundLocalError "mixing_posterior"),
     snd (dirichlet_sample (mkDirichlet (ones K)) (size0 x) g)) /\
  run_vem x K 0 g <> spec_run_vem_zero x K g.
Proof.
  intros HK. rewrite (run_vem_eval x K 0 g HK). unfold spec_run_vem_zero.
  destruct (dirichlet_sample (mkDirichlet (ones K)) (size0 x) g) as [r0 g'].
  split; [reflexivity | discriminate].
Qed.

(** C6.  For n_iter >= 1 (and K >= 1), [run_vem] draws the initial
    responsibilities once, builds the prior with the stated constants,
    runs n_iter sweeps of m_step then e_step, and returns [from_priors]
    of the posteriors of the last m_step, which are computed from the
    responsibilities of the sweep before; the responsibilities of the
    last e_step stay in the local [r_nk] and are not read. *)
Theorem run_vem_returns_last_m_step `{E : Engine}
    (x : Tensor2) (K n_iter : nat) (g : Generator) :
  (1 <= K)%nat -> (1 <= n_iter)%nat ->
  run_vem x K n_iter g = spec_run_vem x K n_iter g /\
  (forall gmm r0,
      let l := vem_loop x gmm n_iter (VemLocals r0 None None) in
      let mc := m_step x (spec_sweeps x gmm r0 (n_iter - 1))
                  (mixing_prior gmm) (component_prior gmm) in
      r_nk l = spec_sweeps x gmm r0 n_iter /\
      mixing_posterior l = Some (fst mc) /\
      component_posteriors l = Some (snd mc)).
Proof.
  intros HK Hn. destruct n_iter as [|n]; [lia |]. unfold spec_run_vem.
  replace (S n - 1)%nat with n by lia. split.
  - rewrite (run_vem_eval x K (S n) g HK).
    destruct (dirichlet_sample (mkDirichlet (ones K)) (size0 x) g) as [r0 g'].
    destruct (vem_loop_posteriors x (spec_init K (size1 x)) n r0 None None)
      as (Hmp & Hcp).
    cbv zeta. unfold bind. rewrite Hmp, Hcp. cbn [read_local ret].
    destruct (m_step x _ _ _) as [mp cp]. reflexivity.
  - intros gmm r0. cbv zeta. split; [apply vem_loop_r_nk |].
    apply vem_loop_posteriors.
Qed.

(** ** The age flow *)

(** The constraint transform of every model is the identity affine map
    followed by the exponential. *)
Lemma age_constraint_is_affine_exp b w n1 n2 :
  age_flow_constraint_transforms (__init__ b w n1 n2) =
  ComposeTransform [AffineTransform 0 1; ExpTransform].
Proof. reflexivity. Qed.

Lemma affine_exp_call (u : R) :
  call (ComposeTransform [AffineTransform 0 1; ExpTransform]) u = exp u.
Proof. simpl. f_equal. ring. Qed.

Lemma affine_exp_inv (y : R) :
  inv (ComposeTransform [AffineTransform 0 1; ExpTransform]) y = ln y.
Proof. simpl. field. Qed.

(** Whatever the spline does, the age flow ends in the exponential: its
    values are positive. *)
Lemma age_flow_positive b w n1 n2 (u : R) :
  0 < call (age_flow_transforms (__init__ b w n1 n2)) u.
Proof.
  cbn [__init__ age_flow_transforms call fold_left]. apply exp_pos.
Qed.

(** C8.  For a positive age, the constraint transform of the age flow
    (the affine map with loc 0 and scale 1, then the exponential) applied
    to its own inverse of that age gives the age back. *)
Theorem age_constraint_forward_after_inverse (b : BaseVISEM)
    (age_spline : SplineWeights)
    (ventricle_volume_net brain_volume_net : Tensor2 -> list Tensor2)
    (age : R) :
  0 < age ->
  let t := age_flow_constraint_transforms
             (__init__ b age_spline ventricle_volume_net brain_volume_net) in
  call t (inv t age) = age.
Proof.
  intros Hpos t. subst t. rewrite age_constraint_is_affine_exp.
  rewrite affine_exp_inv, affine_exp_call. now apply exp_ln.
Qed.

(** The same on everything the age flow produces, and entry by entry on
    a batch. *)
Lemma age_roundtrip_on_flow_output b w n1 n2 (u : R) :
  let self := __init__ b w n1 n2 in
  let age := call (age_flow_transforms self) u in
  call (age_flow_constraint_transforms self)
       (inv (age_flow_constraint_transforms self) age) = age.
Proof.
  cbv zeta. rewrite age_constraint_is_affine_exp.
  rewrite affine_exp_inv, affine_exp_call. apply exp_ln, age_flow_positive.
Qed.

Lemma age_roundtrip_on_batch b w n1 n2 (age : Tensor2) :
  Forall (Forall (fun a => 0 < a)) (rows age) ->
  let t := age_flow_constraint_transforms (__init__ b w n1 n2) in
  call_tensor t (inv_tensor t age) = age.
Proof.
  intros Hpos. cbv zeta. rewrite age_constraint_is_affine_exp.
  unfold call_tensor, inv_tensor, pointwise. destruct age as [s1 rs].
  cbn [rows size1] in *. f_equal. rewrite map_map.
  rewrite <- (map_id rs) at 2. apply map_ext_in. intros r Hr.
  pose proof (proj1 (List.Forall_forall _ _) Hpos r Hr) as Hr_pos.
  rewrite map_map. rewrite <- (map_id r) at 2. apply map_ext_in.
  intros a Ha. rewrite affine_exp_inv, affine_exp_call.
  apply exp_ln. exact (proj1 (List.Forall_forall _ _) Hr_pos a Ha).
Qed.

(** ** The structural prior graph *)

(** The sites of one run of [pgm_model], in order. *)
Lemma pgm_model_sites (self : ConditionalVISEM)
    (draw : string -> Distribution -> Tensor2) :
  map site_name (snd (run draw (pgm_model self))) =
  ["sex"; "age"; "ventricle_volume"; "brain_volume"]%string.
Proof. reflexivity. Qed.

(** C9.  In [pgm_model] the distribution handed to the site "age" is
    built from age_base_loc, age_base_scale and the age flow transforms
    alone; two runs whose draws differ only at the site "sex" sample age
    from the same distribution, although the sex drawn (together with
    the unconstrained age) is the context of both volume flows. *)
Theorem age_distribution_independent_of_sex (self : ConditionalVISEM)
    (draw1 draw2 : string -> Distribution -> Tensor2) :
  (forall name d, name <> "sex"%string -> draw1 name d = draw2 name d) ->
  let age_dist :=
    TransformedDistribution
      (to_event (Normal (age_base_loc (base self))
                        (age_base_scale (base self))) 1)
      [age_flow_transforms self] in
  let context draw :=
    cat1 (draw "sex"%string (to_event (Bernoulli (sex_logits (base self))) 1))
         (inv_tensor (age_flow_constraint_transforms self)
                     (draw "age"%string age_dist)) in
  dist_at "age" (snd (run draw1 (pgm_model self))) = Some age_dist /\
  dist_at "age" (snd (run draw2 (pgm_model self))) = Some age_dist /\
  (forall draw,
      dist_at "ventricle_volume" (snd (run draw (pgm_model self))) =
      Some (ConditionedTransformedDistribution
              (to_event (Normal (ventricle_volume_base_loc (base self))
                                (ventricle_volume_base_scale (base self))) 1)
              (ventricle_volume_flow_transforms self) (context draw)) /\
      dist_at "brain_volume" (snd (run draw (pgm_model self))) =
      Some (ConditionedTransformedDistribution
              (to_event (Normal (brain_volume_base_loc (base self))
                                (brain_volume_base_scale (base self))) 1)
              (brain_volume_flow_transforms self) (context draw))).
Proof.
  intros _. cbv zeta. repeat split; reflexivity.
Qed.

(** ** The registry *)

Lemma import_module_loaded (p : Process) :
  conditional_sem ∈ sys_modules p -> import_module p = p.
Proof. intros H. unfold import_module. now rewrite decide_True. Qed.

(** Once the module is loaded, imports and constructions leave the
    process as it is, and none of them raises. *)
Lemma run_actions_loaded (acts : list Action) (p : Process) :
  conditional_sem ∈ sys_modules p -> run_actions acts p = Ok p.
Proof.
  intros H. induction acts as [|[|b w n1 n2] acts IH]; simpl.
  - reflexivity.
  - now rewrite import_module_loaded.
  - unfold construct. now rewrite decide_True.
Qed.

(** C10.  Loading the module assigns the class to
    MODEL_REGISTRY['ConditionalVISEM'], once; whatever imports and
    constructions follow, none raises, the entry still refers to the
    class, every other entry is as it was before the import, and the
    registry has been assigned exactly once. *)
Theorem import_registers_class_once (reg0 : gmap string ClassObject)
    (acts : list Action) :
  exists p,
    run_actions (Import :: acts) (start reg0) = Ok p /\
    MODEL_REGISTRY p !! "ConditionalVISEM"%string = Some ConditionalVISEM_class /\
    (forall k : string, k <> "ConditionalVISEM"%string ->
                        MODEL_REGISTRY p !! k = reg0 !! k) /\
    registry_writes p = [("ConditionalVISEM"%string, ConditionalVISEM_class)].
Proof.
  exists (import_module (start reg0)).
  assert (Himp : import_module (start reg0) =
                 module_body
                   {| MODEL_REGISTRY := reg0;
                      sys_modules := {[conditional_sem]} ∪ ∅;
                      registry_writes := [] |}).
  { unfold import_module. rewrite decide_False; [reflexivity |].
    cbn [start sys_modules]. set_solver. }
  split.
  - cbn [run_actions]. apply run_actions_loaded.
    rewrite Himp. cbn [module_body registry_setitem sys_modules]. set_solver.
  - rewrite Himp. cbn [module_body registry_setitem MODEL_REGISTRY
                         registry_writes ConditionalVISEM_class __name__].
    split; [apply lookup_insert_eq |].
    split; [| reflexivity].
    intros k Hk. now apply lookup_insert_ne.
Qed.

(** ** The small implementation keeps the contract *)

Lemma Forall_repeat_intro {A} (P : A -> Prop) (a : A) (n : nat) :
  P a -> Forall P (repeat a n).
Proof. intros H. induction n; simpl; constructor; assumption. Qed.

#[global] Instance Demo_engine_contract : EngineContract Demo.engine.
Proof.
  split.
  - intros d N g. cbn [dirichlet_sample Demo.engine fst].
    unfold Demo.uniform_rows, has_shape2, size0. cbn [rows size1].
    rewrite repeat_length. repeat split.
    apply Forall_repeat_intro, repeat_length.
  - intros K D a nu m c dof. unfold stats_shape, has_shape1, has_shape2,
      has_shape3, size0. cbn. rewrite !repeat_length. repeat split.
    + apply Forall_repeat_intro, repeat_length.
    + apply Forall_repeat_intro. rewrite repeat_length. split; [reflexivity |].
      apply Forall_repeat_intro, repeat_length.
  - intros cp x r N K D H _ _. exact H.
Qed.

(** ** The theorems at concrete inputs *)

Lemma inference_two_components_fails_unpacking_witness :
  has_shape2 Demo.x_1x1 1 1 /\ (1 <= 1)%nat /\ 1%nat <> 2%nat /\
  (inference Demo.x_1x1 2 0%nat =
     (Raise (ValueError (NotEnoughValues 2 1)), 1%nat) /\
   forall name, fst (inference Demo.x_1x1 2 0%nat) <> Raise (NameError name)).
Proof.
  assert (Hx : has_shape2 Demo.x_1x1 1 1)
    by (repeat split; repeat constructor).
  assert (H1 : (1 <= 1)%nat) by lia.
  assert (H2 : 1%nat <> 2%nat) by lia.
  split; [exact Hx |]. split; [exact H1 |]. split; [exact H2 |].
  exact (inference_two_components_fails_unpacking
           (E := Demo.engine) Demo.x_1x1 1 1 0%nat Hx H1 H2).
Defined.

(** C1 as it is stated fails already on one data point in one dimension:
    the call raises the unpacking error, not an undefined-name error for
    [pi]; and on two data points it does not fail at all. *)
Lemma inference_name_error_counterexample :
  has_shape2 Demo.x_1x1 1 1 /\
  fst (inference Demo.x_1x1 2 0%nat) = Raise (ValueError (NotEnoughValues 2 1)) /\
  fst (inference Demo.x_1x1 2 0%nat) <> Raise (NameError "pi") /\
  has_shape2 Demo.x_2x1 2 1 /\
  fst (inference Demo.x_2x1 2 0%nat) = Ok PyNone.
Proof.
  split; [repeat split; repeat constructor |].
  rewrite (inference_outcome (E := Demo.engine) Demo.x_1x1 2 0%nat) by lia.
  rewrite (inference_outcome (E := Demo.engine) Demo.x_2x1 2 0%nat) by lia.
  cbn [fst Demo.x_1x1 Demo.x_2x1 size0 rows length].
  split; [reflexivity |]. split; [discriminate |].
  split; [repeat split; repeat constructor | reflexivity].
Qed.

Lemma run_vem_zero_iterations_unbound_witness :
  (1 <= 1)%nat /\
  run_vem Demo.x_1x1 1 0 0%nat =
    (Raise (UnboundLocalError "mixing_posterior"), 1%nat) /\
  run_vem Demo.x_1x1 1 0 0%nat <> spec_run_vem_zero Demo.x_1x1 1 0%nat.
Proof.
  assert (H1 : (1 <= 1)%nat) by lia.
  split; [exact H1 |].
  exact (run_vem_zero_iterations_unbound
           (E := Demo.engine) Demo.x_1x1 1 0%nat H1).
Defined.

Lemma inference_unpacks_e_step_result_witness :
  has_shape2 Demo.x_2x1 2 1 /\ (1 <= 2)%nat /\
  has_shape2 (inference_responsibilities Demo.x_2x1 2 0%nat) 2 2 /\
  inference Demo.x_2x1 2 0%nat = (Ok PyNone, 1%nat).
Proof.
  assert (Hx : has_shape2 Demo.x_2x1 2 1)
    by (repeat split; repeat constructor).
  assert (HK : (1 <= 2)%nat) by lia.
  split; [exact Hx |]. split; [exact HK |].
  destruct (inference_unpacks_e_step_result
              (E := Demo.engine) Demo.x_2x1 2 1 2 0%nat Hx HK)
    as (Hshape & _ & _ & _ & Htwo & _).
  split; [exact Hshape | exact (Htwo eq_refl)].
Defined.

Lemma e_step_is_softmax_of_expected_logs_witness :
  has_shape2 Demo.x_2x1 2 1 /\
  has_shape1 Demo.alpha2 2 /\
  has_shape2 Demo.eta1_2x1 2 1 /\
  has_shape3 Demo.eta2_2x1x1 2 1 1 /\
  has_shape1 Demo.log_norm2 2 /\
  e_step Demo.x_2x1 (mkDirichlet Demo.alpha2)
         (Demo.eta1_2x1, Demo.eta2_2x1x1, Demo.log_norm2) =
  spec_e_step 2 1 2 Demo.x_2x1 Demo.alpha2
              Demo.eta1_2x1 Demo.eta2_2x1x1 Demo.log_norm2.
Proof.
  assert (Hx : has_shape2 Demo.x_2x1 2 1)
    by (repeat split; repeat constructor).
  assert (Ha : has_shape1 Demo.alpha2 2) by reflexivity.
  assert (H1 : has_shape2 Demo.eta1_2x1 2 1)
    by (repeat split; repeat constructor).
  assert (H2 : has_shape3 Demo.eta2_2x1x1 2 1 1)
    by (repeat split; repeat constructor).
  assert (Hl : has_shape1 Demo.log_norm2 2) by reflexivity.
  repeat (split; [assumption |]).
  exact (e_step_is_softmax_of_expected_logs
           (E := Demo.engine) Demo.x_2x1 Demo.alpha2
           (Demo.eta1_2x1, Demo.eta2_2x1x1, Demo.log_norm2)
           Demo.eta1_2x1 Demo.eta2_2x1x1 Demo.log_norm2 2 1 2
           Hx Ha eq_refl H1 H2 Hl).
Defined.

Lemma m_step_adds_column_sums_witness :
  has_shape1 Demo.alpha2 2 /\
  has_shape2 Demo.r_2x2 2 2 /\
  m_step Demo.x_2x1 Demo.r_2x2 (mkDirichlet Demo.alpha2)
         (Demo.eta1_2x1, Demo.eta2_2x1x1, Demo.log_norm2) =
  (mkDirichlet (spec_posterior_concentration 2 2 Demo.alpha2 Demo.r_2x2),
   (Demo.eta1_2x1, Demo.eta2_2x1x1, Demo.log_norm2)).
Proof.
  assert (Ha : has_shape1 Demo.alpha2 2) by reflexivity.
  assert (Hr : has_shape2 Demo.r_2x2 2 2)
    by (repeat split; repeat constructor).
  split; [exact Ha |]. split; [exact Hr |].
  exact (m_step_adds_column_sums
           (E := Demo.engine) Demo.x_2x1 Demo.r_2x2 Demo.alpha2
           (Demo.eta1_2x1, Demo.eta2_2x1x1, Demo.log_norm2) 2 2 Ha Hr).
Defined.

Lemma run_vem_returns_last_m_step_witness :
  (1 <= 1)%nat /\ (1 <= 2)%nat /\
  run_vem Demo.x_1x1 1 2 0%nat = spec_run_vem Demo.x_1x1 1 2 0%nat.
Proof.
  assert (HK : (1 <= 1)%nat) by lia.
  assert (Hn : (1 <= 2)%nat) by lia.
  split; [exact HK |]. split; [exact Hn |].
  exact (proj1 (run_vem_returns_last_m_step
                  (E := Demo.engine) Demo.x_1x1 1 2 0%nat HK Hn)).
Defined.

Lemma e_step_rows_on_simplex_witness :
  (1 <= 2)%nat /\ (1 <= 2)%nat /\
  has_shape2 Demo.x_2x1 2 1 /\
  has_shape1 (concentration (mkDirichlet Demo.alpha2)) 2 /\
  stats_shape (E := Demo.engine)
    (Demo.eta1_2x1, Demo.eta2_2x1x1, Demo.log_norm2) 2 1 /\
  has_shape2
    (e_step Demo.x_2x1 (mkDirichlet Demo.alpha2)
            (Demo.eta1_2x1, Demo.eta2_2x1x1, Demo.log_norm2)) 2 2 /\
  rows_on_simplex
    (e_step Demo.x_2x1 (mkDirichlet Demo.alpha2)
            (Demo.eta1_2x1, Demo.eta2_2x1x1, Demo.log_norm2)).
Proof.
  assert (HN : (1 <= 2)%nat) by lia.
  assert (Hx : has_shape2 Demo.x_2x1 2 1)
    by (repeat split; repeat constructor).
  assert (Ha : has_shape1 (concentration (mkDirichlet Demo.alpha2)) 2)
    by reflexivity.
  assert (Hs : stats_shape (E := Demo.engine)
                 (Demo.eta1_2x1, Demo.eta2_2x1x1, Demo.log_norm2) 2 1)
    by (repeat split; repeat constructor).
  split; [exact HN |]. split; [exact HN |]. split; [exact Hx |].
  split; [exact Ha |]. split; [exact Hs |].
  exact (e_step_rows_on_simplex
           (E := Demo.engine) Demo.x_2x1 (mkDirichlet Demo.alpha2)
           (Demo.eta1_2x1, Demo.eta2_2x1x1, Demo.log_norm2) 2 1 2
           HN HN Hx Ha Hs).
Defined.

Lemma age_constraint_forward_after_inverse_witness :
  0 < 1 /\
  call (age_flow_constraint_transforms Demo.visem)
       (inv (age_flow_constraint_transforms Demo.visem) 1) = 1.
Proof.
  assert (Hpos : 0 < 1) by lra.
  split; [exact Hpos |].
  exact (age_constraint_forward_after_inverse
           Demo.base0 Demo.identity_spline (fun _ => []) (fun _ => [])
           1 Hpos).
Defined.

Lemma age_distribution_independent_of_sex_witness :
  (forall name d, name <> "sex"%string ->
                  Demo.draw_zero name d = Demo.draw_other_sex name d) /\
  Demo.draw_zero "sex" (to_event (Bernoulli [0]) 1) <>
  Demo.draw_other_sex "sex" (to_event (Bernoulli [0]) 1) /\
  dist_at "age" (snd (run Demo.draw_zero (pgm_model Demo.visem))) =
  dist_at "age" (snd (run Demo.draw_other_sex (pgm_model Demo.visem))).
Proof.
  assert (Hsame : forall name d, name <> "sex"%string ->
                    Demo.draw_zero name d = Demo.draw_other_sex name d).
  { intros name d Hne. unfold Demo.draw_zero, Demo.draw_other_sex.
    destruct (String.eqb_spec name "sex"); [contradiction | reflexivity]. }
  split; [exact Hsame |]. split.
  - unfold Demo.draw_zero, Demo.draw_other_sex. simpl. intros Heq.
    injection Heq as Heq. lra.
  - destruct (age_distribution_independent_of_sex
                Demo.visem Demo.draw_zero Demo.draw_other_sex Hsame)
      as (H1 & H2 & _).
    exact (eq_trans H1 (eq_sym H2)).
Defined.

(** * Further properties of the engine *)

(** ** Softmax *)

Lemma sum_nonneg (l : list R) : Forall (fun a => 0 <= a) l -> 0 <= sum l.
Proof.
  induction 1 as [|a l Ha _ IH]; simpl; [lra |]. fold (sum l). lra.
Qed.

Lemma sum_bounds_entry (l : list R) (a : R) :
  Forall (fun b => 0 <= b) l -> In a l -> a <= sum l.
Proof.
  induction 1 as [|b l Hb Hl IH]; intros Hin; [contradiction |].
  simpl. fold (sum l). pose proof (sum_nonneg l Hl). destruct Hin as [-> | Hin].
  - lra.
  - specialize (IH Hin). lra.
Qed.

Lemma softmax1_entries v a :
  In a (softmax1 v) -> 0 < a <= 1.
Proof.
  intros Ha. assert (Hne : v <> []) by (intros ->; contradiction).
  pose proof (sum_exp_pos v Hne) as Hpos. unfold softmax1 in Ha.
  apply in_map_iff in Ha as (e & <- & He).
  assert (He_pos : 0 < e).
  { apply in_map_iff in He as (c & <- & _). apply exp_pos. }
  split.
  - now apply Rdiv_lt_0_compat.
  - apply (Rmult_le_reg_r (sum (map exp v))); [exact Hpos |].
    unfold Rdiv. rewrite Rmult_assoc, Rinv_l by lra. rewrite Rmult_1_r, Rmult_1_l.
    apply sum_bounds_entry; [| exact He].
    apply List.Forall_forall. intros b Hb.
    apply in_map_iff in Hb as (c & <- & _). apply Rlt_le, exp_pos.
Qed.

(** Subtracting one number from every logit does not change a softmax. *)
Lemma softmax1_shift (v : list R) (s : R) :
  softmax1 (map (fun a => a - s) v) = softmax1 v.
Proof.
  destruct v as [|a0 v0]; [reflexivity |].
  set (v := a0 :: v0). assert (Hne : v <> []) by discriminate.
  pose proof (sum_exp_pos v Hne) as Hpos. pose proof (exp_pos (- s)) as Hs.
  assert (Hsum : sum (map exp (map (fun a => a - s) v)) =
                 sum (map exp v) * exp (- s)).
  { clear Hne Hpos. induction v as [|a v IH]; simpl; [lra |].
    fold (sum (map exp (map (fun a => a - s) v))). fold (sum (map exp v)).
    rewrite IH. unfold Rminus. rewrite exp_plus. lra. }
  unfold softmax1. rewrite Hsum, !map_map. apply map_ext. intros a.
  unfold Rminus. rewrite exp_plus. field. lra.
Qed.

Lemma zip_with_plus_shift (dg r : list R) (s : R) :
  zip_with Rplus (map (fun a => a - s) dg) r =
  map (fun a => a - s) (zip_with Rplus dg r).
Proof.
  revert r. induction dg as [|a dg IH]; intros [|b r]; simpl; try reflexivity.
  rewrite IH. f_equal. lra.
Qed.

(** X1.  Under the shapes of C7 every responsibility [e_step] returns is
    strictly positive and at most 1. *)
Theorem e_step_entries_in_unit_interval `{E : Engine} (x : Tensor2)
    (mixing_posterior : Dirichlet) (component_posteriors : NaturalNormalWishart)
    (N D K : nat) :
  has_shape2 x N D ->
  has_shape1 (concentration mixing_posterior) K ->
  stats_shape component_posteriors K D ->
  all_entries (fun a => 0 < a <= 1)
              (e_step x mixing_posterior component_posteriors).
Proof.
  intros _ _ _. destruct mixing_posterior as [alpha].
  destruct (expected_stats component_posteriors) as [[e1 e2] lognorm] eqn:Hes.
  unfold all_entries. rewrite (e_step_rows _ _ _ _ _ _ Hes).
  apply List.Forall_forall. intros r Hr.
  apply in_map_iff in Hr as (xn & <- & _).
  apply List.Forall_forall. intros a Ha. now apply softmax1_entries in Ha.
Qed.

(** X2.  The term [digamma(alpha_k.sum())] of [_compute_expct_log_pi]
    has no effect on the responsibilities: [e_step] returns the softmax
    of [digamma(alpha_k) + expec_log_lik]. *)
Theorem e_step_ignores_digamma_of_total `{E : Engine} (x : Tensor2)
    (mixing_posterior : Dirichlet) (component_posteriors : NaturalNormalWishart) :
  e_step x mixing_posterior component_posteriors =
  softmax_last
    (add12 (map digamma (concentration mixing_posterior))
           (_compute_expec_log_lik x component_posteriors)).
Proof.
  unfold e_step, _compute_expct_log_pi, softmax_last, add12, sub10.
  cbn [size1 rows]. f_equal.
  rewrite (map_map _ softmax1), (map_map _ softmax1). apply map_ext. intros r.
  rewrite zip_with_plus_shift. apply softmax1_shift.
Qed.

(** ** The M-step on responsibilities *)

Lemma sum_zip_with_plus (a b : list R) :
  length a = length b -> sum (zip_with Rplus a b) = sum a + sum b.
Proof.
  revert b. induction a as [|u a IH]; intros [|v b] Hlen; simpl in *;
    try discriminate; [lra |].
  fold (sum (zip_with Rplus a b)). fold (sum a). fold (sum b).
  rewrite IH by lia. lra.
Qed.

Lemma sum_repeat_zero (K : nat) : sum (repeat 0 K) = 0.
Proof. induction K as [|K IH]; simpl; [reflexivity |]. fold (sum (repeat 0 K)). lra. Qed.

(** The column sums add up to the sum of the row sums. *)
Lemma sum_column_sums (K : nat) (rs : list (list R)) :
  Forall (fun r => length r = K) rs ->
  sum (fold_right (zip_with Rplus) (repeat 0 K) rs) = sum (map sum rs).
Proof.
  induction 1 as [|r rs Hr Hrs IH]; cbn [fold_right map].
  - now rewrite sum_repeat_zero.
  - rewrite sum_zip_with_plus
      by (rewrite column_sums_length by assumption; exact Hr).
    rewrite IH. reflexivity.
Qed.

Lemma sum_map_const_one {A} (f : A -> R) (l : list A) :
  Forall (fun a => f a = 1) l -> sum (map f l) = INR (length l).
Proof.
  induction 1 as [|a l Ha _ IH]; [reflexivity |].
  cbn [map length]. rewrite S_INR. simpl. fold (sum (map f l)).
  rewrite IH, Ha. lra.
Qed.

Lemma m_step_mass `{E : Engine} (x r_nk : Tensor2)
    (mixing_prior : Dirichlet) (component_prior : NaturalNormalWishart)
    (N K : nat) :
  has_shape1 (concentration mixing_prior) K ->
  has_shape2 r_nk N K ->
  rows_on_simplex r_nk ->
  sum (concentration (fst (m_step x r_nk mixing_prior component_prior))) =
  sum (concentration mixing_prior) + INR N.
Proof.
  intros Ha (HN & HK & Hrows) Hsimplex. unfold m_step. cbn [fst concentration].
  unfold add11, sum0, has_shape1 in *. rewrite HK.
  rewrite sum_zip_with_plus
    by (rewrite column_sums_length by assumption; exact Ha).
  rewrite sum_column_sums by assumption. f_equal.
  unfold size0 in HN. rewrite <- HN. apply sum_map_const_one.
  unfold rows_on_simplex in Hsimplex.
  eapply List.Forall_impl; [| exact Hsimplex]. intros r [_ Hr]. exact Hr.
Qed.

(** X3.  With responsibilities whose rows sum to one, the M-step adds
    exactly N to the total concentration of the mixing prior. *)
Theorem m_step_total_concentration `{E : Engine} (x r_nk : Tensor2)
    (mixing_prior : Dirichlet) (component_prior : NaturalNormalWishart)
    (N K : nat) :
  has_shape1 (concentration mixing_prior) K ->
  has_shape2 r_nk N K ->
  rows_on_simplex r_nk ->
  sum (concentration (fst (m_step x r_nk mixing_prior component_prior))) =
  sum (concentration mixing_prior) + INR N.
Proof.
  intros Ha (HN & HK & Hrows) Hsimplex. unfold m_step. cbn [fst concentration].
  unfold add11, sum0, has_shape1 in *. rewrite HK.
  rewrite sum_zip_with_plus
    by (rewrite column_sums_length by assumption; exact Ha).
  rewrite sum_column_sums by assumption. f_equal.
  unfold size0 in HN. rewrite <- HN. apply sum_map_const_one.
  unfold rows_on_simplex in Hsimplex.
  eapply List.Forall_impl; [| exact Hsimplex]. intros r [_ Hr]. exact Hr.
Qed.

Lemma zip_with_plus_nonneg (a b : list R) :
  Forall (fun u => 0 <= u) a -> Forall (fun u => 0 <= u) b ->
  Forall (fun u => 0 <= u) (zip_with Rplus a b).
Proof.
  intros Ha. revert b. induction Ha as [|u a Hu _ IH]; intros b Hb.
  - constructor.
  - destruct Hb as [|v b Hv Hb]; simpl; constructor; [lra | now apply IH].
Qed.

Lemma column_sums_nonneg (K : nat) (rs : list (list R)) :
  Forall (Forall (fun a => 0 <= a)) rs ->
  Forall (fun a => 0 <= a) (fold_right (zip_with Rplus) (repeat 0 K) rs).
Proof.
  induction 1 as [|r rs Hr _ IH]; cbn [fold_right].
  - apply Forall_repeat_intro. lra.
  - now apply zip_with_plus_nonneg.
Qed.

(** X4.  The M-step never lowers a concentration: with responsibilities
    that are not negative, every posterior concentration is at least the
    prior one, so a positive prior gives a positive posterior, of the
    same length. *)
Theorem m_step_concentration_grows `{E : Engine} (x r_nk : Tensor2)
    (mixing_prior : Dirichlet) (component_prior : NaturalNormalWishart)
    (N K : nat) :
  has_shape1 (concentration mixing_prior) K ->
  has_shape2 r_nk N K ->
  all_entries (fun a => 0 <= a) r_nk ->
  let post := concentration (fst (m_step x r_nk mixing_prior component_prior)) in
  has_shape1 post K /\
  (forall k, (k < K)%nat ->
             at1 (concentration mixing_prior) k <= at1 post k) /\
  (Forall (fun a => 0 < a) (concentration mixing_prior) ->
   Forall (fun a => 0 < a) post).
Proof.
  intros Ha (HN & HK & Hrows) Hnn post. subst post.
  unfold m_step. cbn [fst concentration]. unfold add11, sum0, has_shape1 in *.
  rewrite HK.
  pose proof (column_sums_length K (rows r_nk) Hrows) as Hlen.
  pose proof (column_sums_nonneg K (rows r_nk) Hnn) as Hcs.
  set (cs := fold_right (zip_with Rplus) (repeat 0 K) (rows r_nk)) in *.
  assert (Hgrow : forall k, (k < K)%nat ->
            at1 (concentration mixing_prior) k <=
            at1 (zip_with Rplus (concentration mixing_prior) cs) k).
  { intros k Hk. unfold at1. rewrite nth_zip_with_R; [| lra | lia].
    pose proof (Forall_nth_lt _ cs k 0 Hcs ltac:(lia)) as Hk_nn.
    simpl in Hk_nn. lra. }
  split; [rewrite length_zip_with; lia |]. split; [exact Hgrow |].
  intros Hpos. apply List.Forall_forall. intros a Hin.
  apply (In_nth _ _ 0) in Hin as (k & Hk & <-).
  rewrite length_zip_with in Hk.
  pose proof (Forall_nth_lt _ (concentration mixing_prior) k 0 Hpos ltac:(lia))
    as Hprior. simpl in Hprior.
  specialize (Hgrow k ltac:(lia)). unfold at1 in Hgrow. lra.
Qed.

Lemma zip_with_plus_assoc (a b c : list R) :
  zip_with Rplus a (zip_with Rplus b c) = zip_with Rplus (zip_with Rplus a b) c.
Proof.
  revert b c. induction a as [|u a IH]; intros [|v b] [|w c]; simpl;
    try reflexivity.
  rewrite IH. f_equal. lra.
Qed.

Lemma zip_with_plus_zeros (K : nat) (a : list R) :
  length a = K -> zip_with Rplus (repeat 0 K) a = a.
Proof.
  intros <-. induction a as [|u a IH]; simpl; [reflexivity |].
  rewrite IH. f_equal. lra.
Qed.

(** The column sums of two stacked arrays. *)
Lemma column_sums_app (K : nat) (rs1 rs2 : list (list R)) :
  Forall (fun r => length r = K) rs2 ->
  fold_right (zip_with Rplus) (repeat 0 K) (rs1 ++ rs2) =
  zip_with Rplus (fold_right (zip_with Rplus) (repeat 0 K) rs1)
                 (fold_right (zip_with Rplus) (repeat 0 K) rs2).
Proof.
  intros H2. induction rs1 as [|r rs1 IH]; cbn [app fold_right].
  - now rewrite zip_with_plus_zeros by (now apply column_sums_length).
  - rewrite IH. apply zip_with_plus_assoc.
Qed.

(** X5.  The mixing posterior can be updated batch by batch: the M-step
    on two stacked responsibility arrays gives the concentration that two
    M-steps give, the second taking the posterior of the first as its
    prior. *)
Theorem m_step_concentration_by_batches `{E : Engine}
    (x1 x2 r1 r2 : Tensor2) (mixing_prior : Dirichlet)
    (cp cp1 cp2 : NaturalNormalWishart) (N1 N2 K : nat) :
  has_shape1 (concentration mixing_prior) K ->
  has_shape2 r1 N1 K -> has_shape2 r2 N2 K ->
  concentration (fst (m_step (cat0 x1 x2) (cat0 r1 r2) mixing_prior cp)) =
  concentration
    (fst (m_step x2 r2 (fst (m_step x1 r1 mixing_prior cp1)) cp2)).
Proof.
  intros _ (_ & HK1 & Hrows1) (_ & HK2 & Hrows2).
  unfold m_step, cat0. cbn [fst concentration]. unfold add11, sum0.
  cbn [size1 rows]. rewrite HK1, HK2.
  rewrite column_sums_app by assumption. apply zip_with_plus_assoc.
Qed.

(** ** The E-step on stacked data *)

(** X6.  The E-step treats the data points one by one: on two stacked
    data matrices it returns the responsibilities of the first followed
    by those of the second. *)
Theorem e_step_by_batches `{E : Engine} (x1 x2 : Tensor2)
    (mixing_posterior : Dirichlet) (component_posteriors : NaturalNormalWishart)
    (N1 N2 D : nat) :
  has_shape2 x1 N1 D -> has_shape2 x2 N2 D ->
  e_step (cat0 x1 x2) mixing_posterior component_posteriors =
  cat0 (e_step x1 mixing_posterior component_posteriors)
       (e_step x2 mixing_posterior component_posteriors).
Proof.
  intros _ _. destruct mixing_posterior as [alpha].
  destruct (expected_stats component_posteriors) as [[e1 e2] lognorm] eqn:Hes.
  pose proof (e_step_rows (cat0 x1 x2) alpha _ _ _ _ Hes) as H12.
  pose proof (e_step_rows x1 alpha _ _ _ _ Hes) as H1.
  pose proof (e_step_rows x2 alpha _ _ _ _ Hes) as H2.
  pose proof (e_step_size1 (cat0 x1 x2) (mkDirichlet alpha) component_posteriors)
    as S12.
  pose proof (e_step_size1 x1 (mkDirichlet alpha) component_posteriors) as S1.
  unfold cat0 at 2.
  destruct (e_step (cat0 x1 x2) _ _) as [s12 rs12].
  destruct (e_step x1 _ _) as [s1 rs1]. destruct (e_step x2 _ _) as [s2 rs2].
  cbn [rows size1] in *. subst. f_equal. apply map_app.
Qed.

(** ** The loop of run_vem *)

Section Sweeps.
Context `{E : Engine} `{!EngineContract E}.

Lemma e_step_simplex x alpha cp N D K :
  (1 <= K)%nat ->
  has_shape2 x N D -> has_shape1 alpha K -> stats_shape cp K D ->
  rows_on_simplex (e_step x (mkDirichlet alpha) cp).
Proof.
  intros HK Hx Ha Hst.
  pose proof (e_step_shape x alpha cp N D K Hx Ha Hst) as (_ & _ & Hlen).
  destruct (expected_stats cp) as [[e1 e2] lognorm] eqn:Hes.
  unfold rows_on_simplex. rewrite (e_step_rows _ _ _ _ _ _ Hes) in *.
  apply List.Forall_forall. intros r Hr.
  pose proof (proj1 (List.Forall_forall _ _) Hlen r Hr) as Hr_len.
  apply in_map_iff in Hr as (xn & <- & _).
  apply softmax1_simplex. intros Hnil.
  rewrite softmax1_length, Hnil in Hr_len. simpl in Hr_len. lia.
Qed.

Lemma m_step_shapes x r alpha cp N D K :
  has_shape2 x N D -> has_shape2 r N K ->
  has_shape1 alpha K -> stats_shape cp K D ->
  has_shape1 (concentration (fst (m_step x r (mkDirichlet alpha) cp))) K /\
  stats_shape (snd (m_step x r (mkDirichlet alpha) cp)) K D.
Proof.
  intros Hx Hr Ha Hst. unfold m_step. cbn [fst snd concentration]. split.
  - destruct Hr as (_ & HK & Hrows). unfold has_shape1, add11, sum0 in *.
    rewrite length_zip_with, HK, column_sums_length by exact Hrows. lia.
  - now apply (posterior_shape _ _ _ N K D).
Qed.

Lemma spec_init_shapes (K D : nat) :
  has_shape1 (concentration (mixing_prior (spec_init K D))) K /\
  stats_shape (component_prior (spec_init K D)) K D.
Proof. apply init_shape. Qed.

(** The responsibilities keep their shape through the sweeps. *)
Lemma spec_sweeps_shape x r0 N D K i :
  has_shape2 x N D -> has_shape2 r0 N K ->
  has_shape2 (spec_sweeps x (spec_init K D) r0 i) N K.
Proof.
  intros Hx Hr0. induction i as [|i IH]; [exact Hr0 |].
  cbn [spec_sweeps]. destruct (spec_init_shapes K D) as (Ha & Hst).
  destruct (mixing_prior (spec_init K D)) as [alpha] eqn:Hmp.
  cbn [concentration] in Ha.
  pose proof (m_step_shapes x _ alpha _ N D K Hx IH Ha Hst) as (Hpa & Hps).
  destruct (m_step x _ (mkDirichlet alpha) _) as [[alpha'] cp'].
  cbn [fst snd concentration] in *. now apply (e_step_shape x alpha' cp' N D K).
Qed.

Lemma spec_sweeps_simplex x r0 N D K i :
  (1 <= K)%nat -> has_shape2 x N D -> has_shape2 r0 N K ->
  rows_on_simplex (spec_sweeps x (spec_init K D) r0 (S i)).
Proof.
  intros HK Hx Hr0. cbn [spec_sweeps].
  pose proof (spec_sweeps_shape x r0 N D K i Hx Hr0) as Hri.
  destruct (spec_init_shapes K D) as (Ha & Hst).
  destruct (mixing_prior (spec_init K D)) as [alpha] eqn:Hmp.
  cbn [concentration] in Ha.
  pose proof (m_step_shapes x _ alpha _ N D K Hx Hri Ha Hst) as (Hpa & Hps).
  destruct (m_step x _ (mkDirichlet alpha) _) as [[alpha'] cp'].
  cbn [fst snd concentration] in *. now apply (e_step_simplex x alpha' cp' N D K).
Qed.

End Sweeps.

(** X7.  Whatever array of shape (N, K) the loop of [run_vem] starts
    from, after every pass through its body the local [r_nk] has shape
    (N, K), has no negative entry and has rows that sum to one. *)
Theorem vem_loop_keeps_responsibilities `{E : Engine} `{!EngineContract E}
    (x r0 : Tensor2) (N D K n_iter : nat) :
  (1 <= K)%nat -> (1 <= n_iter)%nat ->
  has_shape2 x N D -> has_shape2 r0 N K ->
  let l := vem_loop x (spec_init K D) n_iter (VemLocals r0 None None) in
  has_shape2 (r_nk l) N K /\ rows_on_simplex (r_nk l).
Proof.
  intros HK Hn Hx Hr0. cbv zeta. rewrite vem_loop_r_nk.
  destruct n_iter as [|n]; [lia |]. split.
  - now apply spec_sweeps_shape.
  - now apply (spec_sweeps_simplex x r0 N D K n).
Qed.

(** X8.  With K >= 1 and at least two iterations, [run_vem] returns
    [from_priors] of a mixing posterior with K concentrations whose total
    is the total of the prior plus N, and of component posteriors with
    the shapes of K components in dimension D. *)
Theorem run_vem_posterior_mass `{E : Engine} `{!EngineContract E}
    (x : Tensor2) (N D K n_iter : nat) (g : Generator) :
  (1 <= K)%nat -> (2 <= n_iter)%nat -> has_shape2 x N D ->
  exists mp cp,
    run_vem x K n_iter g =
      (Ok (from_priors mp cp),
       snd (dirichlet_sample (mkDirichlet (ones K)) N g)) /\
    has_shape1 (concentration mp) K /\
    stats_shape cp K D /\
    sum (concentration mp) =
    sum (concentration (mixing_prior (spec_init K D))) + INR N.
Proof.
  intros HK Hn Hx. pose proof Hx as (HN & HD & _).
  rewrite (run_vem_eval x K n_iter g HK), HN, HD.
  pose proof (sample_shape (mkDirichlet (ones K)) N g) as Hr0.
  destruct (dirichlet_sample (mkDirichlet (ones K)) N g) as [r0 g'].
  cbn [fst snd concentration] in *. unfold ones in Hr0.
  rewrite repeat_length in Hr0.
  destruct n_iter as [|[|n]]; try lia.
  destruct (vem_loop_posteriors x (spec_init K D) (S n) r0 None None)
    as (Hmp & Hcp).
  pose proof (spec_sweeps_shape x r0 N D K (S n) Hx Hr0) as Hshape.
  pose proof (spec_sweeps_simplex x r0 N D K n HK Hx Hr0) as Hsimplex.
  destruct (spec_init_shapes K D) as (Ha & Hst).
  set (r := spec_sweeps x (spec_init K D) r0 (S n)) in *.
  pose proof (m_step_mass x r (mixing_prior (spec_init K D))
                (component_prior (spec_init K D)) N K Ha Hshape Hsimplex)
    as Hmass.
  destruct (mixing_prior (spec_init K D)) as [alpha] eqn:Halpha.
  cbn [concentration] in Ha.
  pose proof (m_step_shapes x r alpha _ N D K Hx Hshape Ha Hst) as (Hpa & Hps).
  destruct (m_step x r (mkDirichlet alpha) _) as [mp cp].
  cbn [fst snd] in *. exists mp, cp. cbv zeta. unfold bind.
  rewrite Hmp, Hcp. cbn [read_local ret]. repeat split; assumption.
Qed.


(** * Further properties of the conditional model *)

(** ** Transforms *)

(** X10.  A composition of transforms each undone by its inverse is
    undone by its inverse: [inv] runs through the parts backwards. *)
Theorem compose_inverse_undoes_call (parts : list Transform) :
  Forall (fun p => forall u, inv p (call p u) = u) parts ->
  forall u, inv (ComposeTransform parts) (call (ComposeTransform parts) u) = u.
Proof.
  intros Hparts. cbn [call inv].
  induction Hparts as [|p ps Hp _ IH]; intros u; [reflexivity |].
  cbn [fold_left fold_right]. rewrite IH. apply Hp.
Qed.

Lemma affine_exp_inv_call (u : R) :
  inv (ComposeTransform [AffineTransform 0 1; ExpTransform])
      (call (ComposeTransform [AffineTransform 0 1; ExpTransform]) u) = u.
Proof. rewrite affine_exp_call, affine_exp_inv. apply ln_exp. Qed.

Lemma affine_exp_call_inv (y : R) :
  0 < y ->
  call (ComposeTransform [AffineTransform 0 1; ExpTransform])
       (inv (ComposeTransform [AffineTransform 0 1; ExpTransform]) y) = y.
Proof. intros Hy. rewrite affine_exp_inv, affine_exp_call. now apply exp_ln. Qed.

(** X11.  The constraint transforms of the two volume flows are, like
    the one of age, the exponential after the identity affine map: their
    inverse undoes them everywhere, they undo their inverse on the
    positive values, and their values are positive. *)
Theorem volume_constraints_round_trip (b : BaseVISEM)
    (age_spline : SplineWeights)
    (ventricle_volume_net brain_volume_net : Tensor2 -> list Tensor2)
    (u y : R) :
  0 < y ->
  let self := __init__ b age_spline ventricle_volume_net brain_volume_net in
  let tv := ventricle_volume_flow_constraint_transforms self in
  let tb := brain_volume_flow_constraint_transforms self in
  (inv tv (call tv u) = u /\ call tv (inv tv y) = y /\ 0 < call tv u) /\
  (inv tb (call tb u) = u /\ call tb (inv tb y) = y /\ 0 < call tb u).
Proof.
  intros Hy. cbv zeta. cbn [__init__ ventricle_volume_flow_constraint_transforms
                             brain_volume_flow_constraint_transforms].
  rewrite !affine_exp_inv_call, !(affine_exp_call_inv y Hy), !affine_exp_call.
  pose proof (exp_pos u). repeat split; assumption.
Qed.

(** X12.  The unconstrained age [pgm_model] recovers from an age the flow
    produced is the value of the spline: the inverse of the constraint
    transform strips exactly the constraint stage of the flow. *)
Theorem age_unconstrained_is_spline_value (b : BaseVISEM)
    (age_spline : SplineWeights)
    (ventricle_volume_net brain_volume_net : Tensor2 -> list Tensor2)
    (u : R) :
  let self := __init__ b age_spline ventricle_volume_net brain_volume_net in
  inv (age_flow_constraint_transforms self)
      (call (age_flow_transforms self) u) =
  call (age_flow_components self) u /\
  call (age_flow_components self) u = spline_call age_spline u.
Proof.
  cbv zeta. split; [| reflexivity].
  cbn [__init__ age_flow_constraint_transforms age_flow_transforms
       age_flow_components].
  change (call (ComposeTransform
                  [ComposeTransformModule [Spline 1 age_spline];
                   ComposeTransform [AffineTransform 0 1; ExpTransform]]) u)
    with (call (ComposeTransform [AffineTransform 0 1; ExpTransform])
               (call (ComposeTransformModule [Spline 1 age_spline]) u)).
  apply affine_exp_inv_call.
Qed.

(** X13.  If the spline weights describe a bijection, the whole age flow
    is one between the reals and the positive reals: its inverse undoes
    it, and it undoes its inverse on every positive age. *)
Theorem age_flow_round_trip (b : BaseVISEM) (age_spline : SplineWeights)
    (ventricle_volume_net brain_volume_net : Tensor2 -> list Tensor2)
    (u age : R) :
  (forall v, spline_inv age_spline (spline_call age_spline v) = v) ->
  (forall v, spline_call age_spline (spline_inv age_spline v) = v) ->
  0 < age ->
  let flow := age_flow_transforms
                (__init__ b age_spline ventricle_volume_net brain_volume_net) in
  inv flow (call flow u) = u /\ call flow (inv flow age) = age.
Proof.
  intros Hic Hci Hage. cbv zeta.
  cbn [__init__ age_flow_transforms].
  set (c := ComposeTransform [AffineTransform 0 1; ExpTransform]).
  set (flow := ComposeTransform [ComposeTransformModule [Spline 1 age_spline]; c]).
  assert (Hcall : forall a, call flow a = call c (spline_call age_spline a))
    by reflexivity.
  assert (Hinv : forall a, inv flow a = spline_inv age_spline (inv c a))
    by reflexivity.
  split.
  - rewrite Hinv, Hcall. unfold c. rewrite affine_exp_inv_call. apply Hic.
  - rewrite Hcall, Hinv, Hci. unfold c. now apply affine_exp_call_inv.
Qed.

(** X14.  The age flow keeps the order of its inputs whenever the spline
    does, and all its values are positive. *)
Theorem age_flow_increasing (b : BaseVISEM) (age_spline : SplineWeights)
    (ventricle_volume_net brain_volume_net : Tensor2 -> list Tensor2)
    (u v : R) :
  (forall a c, a < c -> spline_call age_spline a < spline_call age_spline c) ->
  u < v ->
  let flow := age_flow_transforms
                (__init__ b age_spline ventricle_volume_net brain_volume_net) in
  0 < call flow u /\ call flow u < call flow v.
Proof.
  intros Hmono Huv. cbv zeta.
  cbn [__init__ age_flow_transforms call fold_left]. split; [apply exp_pos |].
  apply exp_increasing. specialize (Hmono u v Huv). lra.
Qed.

(** ** The structural prior graph, continued *)

Lemma pointwise_ext (f g : R -> R) (t : Tensor2) :
  (forall a, f a = g a) -> pointwise f t = pointwise g t.
Proof.
  intros H. unfold pointwise. f_equal. apply map_ext. intros r.
  apply map_ext. exact H.
Qed.

(** X15.  For a model built by [__init__], both volume flows are
    conditioned on the drawn sex next to the logarithm of the drawn age,
    each entry of age by itself. *)
Theorem volume_context_is_sex_and_log_age (b : BaseVISEM)
    (age_spline : SplineWeights)
    (ventricle_volume_net brain_volume_net : Tensor2 -> list Tensor2)
    (draw : string -> Distribution -> Tensor2) :
  let self := __init__ b age_spline ventricle_volume_net brain_volume_net in
  let sex := draw "sex"%string (to_event (Bernoulli (sex_logits b)) 1) in
  let age :=
    draw "age"%string
         (TransformedDistribution
            (to_event (Normal (age_base_loc b) (age_base_scale b)) 1)
            [age_flow_transforms self]) in
  let context := cat1 sex (pointwise ln age) in
  dist_at "ventricle_volume" (snd (run draw (pgm_model self))) =
    Some (ConditionedTransformedDistribution
            (to_event (Normal (ventricle_volume_base_loc b)
                              (ventricle_volume_base_scale b)) 1)
            (ventricle_volume_flow_transforms self) context) /\
  dist_at "brain_volume" (snd (run draw (pgm_model self))) =
    Some (ConditionedTransformedDistribution
            (to_event (Normal (brain_volume_base_loc b)
                              (brain_volume_base_scale b)) 1)
            (brain_volume_flow_transforms self) context).
Proof.
  cbv zeta.
  set (self := __init__ b age_spline ventricle_volume_net brain_volume_net).
  assert (Hinv : forall t,
            inv_tensor (age_flow_constraint_transforms self) t =
            pointwise ln t).
  { intros t. unfold inv_tensor. apply pointwise_ext. intros a.
    apply affine_exp_inv. }
  split; cbn [pgm_model run snd dist_at site_name site_dist String.eqb
              Ascii.eqb Bool.eqb]; rewrite Hinv; reflexivity.
Qed.

(** X16.  The two volumes are not parents of each other: two runs whose
    draws differ only at the site "ventricle_volume" sample brain_volume
    from the same distribution, and the distribution of sex is the same
    in every run. *)
Theorem brain_volume_independent_of_ventricle_volume (self : ConditionalVISEM)
    (draw1 draw2 : string -> Distribution -> Tensor2) :
  (forall name d, name <> "ventricle_volume"%string ->
                  draw1 name d = draw2 name d) ->
  dist_at "brain_volume" (snd (run draw1 (pgm_model self))) =
  dist_at "brain_volume" (snd (run draw2 (pgm_model self))) /\
  dist_at "sex" (snd (run draw1 (pgm_model self))) =
  dist_at "sex" (snd (run draw2 (pgm_model self))).
Proof.
  intros Hsame. split; [| reflexivity].
  cbn [pgm_model run snd dist_at site_name site_dist String.eqb
       Ascii.eqb Bool.eqb].
  rewrite !(Hsame "sex"%string), !(Hsame "age"%string) by discriminate.
  reflexivity.
Qed.



(** ** The registry, continued *)

(** X18.  Loading the module adds the key 'ConditionalVISEM' to the keys
    the registry had and no other: the registry grows by one entry if the
    key was free, and keeps its size, silently replacing the class, if
    the key was taken; loading again changes nothing. *)
Theorem import_adds_one_key (reg0 : gmap string ClassObject) :
  let p := import_module (start reg0) in
  dom (MODEL_REGISTRY p) = {["ConditionalVISEM"%string]} ∪ dom reg0 /\
  (reg0 !! "ConditionalVISEM"%string = None ->
   size (MODEL_REGISTRY p) = S (size reg0)) /\
  (forall other, reg0 !! "ConditionalVISEM"%string = Some other ->
   size (MODEL_REGISTRY p) = size reg0 /\
   MODEL_REGISTRY p !! "ConditionalVISEM"%string = Some ConditionalVISEM_class) /\
  import_module p = p.
Proof.
  cbv zeta.
  assert (Himp : import_module (start reg0) =
                 module_body
                   {| MODEL_REGISTRY := reg0;
                      sys_modules := {[conditional_sem]} ∪ ∅;
                      registry_writes := [] |}).
  { unfold import_module. rewrite decide_False; [reflexivity |].
    cbn [start sys_modules]. set_solver. }
  rewrite Himp.
  cbn [module_body registry_setitem MODEL_REGISTRY ConditionalVISEM_class
       __name__].
  split; [apply dom_insert_L |].
  split; [intros Hnone; now apply map_size_insert_None |].
  split.
  - intros other Hsome. split; [| apply lookup_insert_eq].
    apply map_size_insert_Some. now exists other.
  - apply import_module_loaded. cbn [sys_modules]. set_solver.
Qed.

(** ** The full model and the guide *)

(** A site of the prior graph, as [model] records it. *)
Lemma run_program_and_then {A B} draw draw_image (p : Program A)
    (k : A -> Program B) :
  run_program draw draw_image (and_then p k) =
  let '(a, tr) := run_program draw draw_image p in
  let '(b, tr') := run_program draw draw_image (k a) in
  (b, tr ++ tr').
Proof.
  induction p as [a | pl name d c IH | pl name d c IH]; cbn [and_then run_program].
  - destruct (run_program draw draw_image (k a)) as [b tr']. reflexivity.
  - rewrite IH. destruct (run_program draw draw_image (c _)) as [a tr].
    destruct (run_program draw draw_image (k a)) as [b tr']. reflexivity.
  - rewrite IH. destruct (run_program draw draw_image (c _)) as [a tr].
    destruct (run_program draw draw_image (k a)) as [b tr']. reflexivity.
Qed.

Lemma run_program_lift {A} draw draw_image (p : Pyro A) :
  run_program draw draw_image (lift p) =
  let '(a, tr) := run (fun name d => draw name (Covariate d)) p in
  (a, map (fun s => Build_SiteRecord [] (site_name s) (Covariate (site_dist s))
                      (inl (site_value s))) tr).
Proof.
  induction p as [a | name d c IH]; cbn [lift run_program run]; [reflexivity |].
  rewrite IH. destruct (run _ (c _)) as [a tr]. reflexivity.
Qed.

(** X19.  A run of [model] meets the four sites of [pgm_model], with the
    distributions and values a run of [pgm_model] on the same draws has,
    then the site "z" and last the site "x", none of them under a plate;
    it returns the two values drawn there before what [pgm_model]
    returned. *)
Theorem model_extends_pgm_model (self : ConditionalVISEM) (im : ImageSide)
    (draw : string -> SiteDistribution -> Tensor2)
    (draw_image : string -> SiteDistribution -> Tensor4) :
  let pgm := run (fun name d => draw name (Covariate d)) (pgm_model self) in
  let m := run_program draw draw_image (model self im) in
  let '(x, z, age, sex, ventricle_volume, brain_volume) := fst m in
  (age, sex, ventricle_volume, brain_volume) = fst pgm /\
  exists z_dist x_dist,
    snd m =
      map (fun s => Build_SiteRecord [] (site_name s) (Covariate (site_dist s))
                      (inl (site_value s))) (snd pgm)
      ++ [Build_SiteRecord [] "z" z_dist (inl z);
          Build_SiteRecord [] "x" x_dist (inr x)].
Proof.
  cbv zeta. unfold model. rewrite run_program_and_then, run_program_lift.
  destruct (run (fun name d => draw name (Covariate d)) (pgm_model self))
    as [[[[age sex] vv] bv] tr].
  cbn [run_program fst snd]. split; [reflexivity |]. eexists _, _. reflexivity.
Qed.

(** The value and the distribution a run recorded at a site. *)
Lemma model_sites (self : ConditionalVISEM) (im : ImageSide)
    (draw : string -> SiteDistribution -> Tensor2)
    (draw_image : string -> SiteDistribution -> Tensor4) :
  map rec_name (snd (run_program draw draw_image (model self im))) =
  ["sex"; "age"; "ventricle_volume"; "brain_volume"; "z"; "x"]%string.
Proof. reflexivity. Qed.

(** X20.  The image depends on sex only through the two volumes: two
    runs of [model] that drew the same age, ventricle_volume,
    brain_volume and z sample x from the same distribution, whatever sex
    they drew. *)
Theorem image_independent_of_sex_given_volumes (self : ConditionalVISEM)
    (im : ImageSide)
    (draw1 draw2 : string -> SiteDistribution -> Tensor2)
    (draw_image1 draw_image2 : string -> SiteDistribution -> Tensor4) :
  let tr1 := snd (run_program draw1 draw_image1 (model self im)) in
  let tr2 := snd (run_program draw2 draw_image2 (model self im)) in
  (forall name, In name ["age"; "ventricle_volume"; "brain_volume"; "z"]%string ->
     option_map rec_value (record_at name tr1) =
     option_map rec_value (record_at name tr2)) ->
  option_map rec_dist (record_at "x" tr1) =
  option_map rec_dist (record_at "x" tr2).
Proof.
  cbv zeta. intros Hsame.
  pose proof (Hsame "age"%string ltac:(simpl; tauto)) as Hage.
  pose proof (Hsame "ventricle_volume"%string ltac:(simpl; tauto)) as Hvv.
  pose proof (Hsame "brain_volume"%string ltac:(simpl; tauto)) as Hbv.
  pose proof (Hsame "z"%string ltac:(simpl; tauto)) as Hz.
  clear Hsame.
  cbn [model pgm_model lift and_then run_program snd record_at rec_name
       rec_value rec_dist option_map String.eqb Ascii.eqb Bool.eqb]
    in Hage, Hvv, Hbv, Hz |- *.
  injection Hage as Hage. injection Hvv as Hvv. injection Hbv as Hbv.
  injection Hz as Hz. rewrite Hz, Hbv, Hvv, Hage. reflexivity.
Qed.

(** Shapes through the elementwise maps and the concatenation. *)
Lemma has_shape2_pointwise (f : R -> R) (t : Tensor2) (B D : nat) :
  has_shape2 t B D -> has_shape2 (pointwise f t) B D.
Proof.
  intros (HB & HD & Hrows). unfold has_shape2, pointwise, size0 in *.
  cbn [rows size1]. rewrite length_map. repeat split; try assumption.
  apply List.Forall_forall. intros r Hr.
  apply in_map_iff in Hr as (r0 & <- & Hr0). rewrite length_map.
  exact (proj1 (List.Forall_forall _ _) Hrows r0 Hr0).
Qed.

Lemma has_shape2_cat1 (a b : Tensor2) (B Da Db : nat) :
  has_shape2 a B Da -> has_shape2 b B Db ->
  has_shape2 (cat1 a b) B (Da + Db).
Proof.
  intros (HBa & HDa & Hra) (HBb & HDb & Hrb).
  unfold has_shape2, cat1, size0 in *. cbn [rows size1].
  rewrite length_zip_with. repeat split; [lia | lia |].
  clear HBa HBb. revert Hrb. generalize (rows b).
  induction Hra as [|r ra Hr _ IH]; intros rb Hrb; [constructor |].
  destruct Hrb as [|s rb Hs Hrb]; simpl; constructor.
  - rewrite length_app. lia.
  - now apply IH.
Qed.

(** The concatenation both [model] and [guide] build. *)
Lemma has_shape2_cat1_four (h a v w : Tensor2) (B L : nat) :
  has_shape2 h B L -> has_shape2 a B 1 -> has_shape2 v B 1 ->
  has_shape2 w B 1 ->
  has_shape2 (cat1_all [h; a; v; w]) B (L + 3).
Proof.
  intros Hh Ha Hv Hw. cbn [cat1_all fold_left].
  replace (L + 3)%nat with (L + 1 + 1 + 1)%nat by lia.
  repeat apply has_shape2_cat1; assumption.
Qed.

(** X21.  In a run of [model] over a batch of B rows, with z of width
    latent_dim and one column per covariate, the tensor the decoder is
    applied to, [cat([z, age_, ventricle_volume_, brain_volume_], 1)],
    has shape (B, latent_dim + 3), the width the decoder was built for in
    [__init__]; the pixel scale of the likelihood is the exponential of
    the learned log-scale, so it is positive. *)
Theorem decoder_input_has_declared_width (self : ConditionalVISEM)
    (b : BaseImageAttributes)
    (decoder_weights : Tensor2 -> Tensor4) (mean_weights : Conv2d_1_1_1)
    (encoder_weights : Tensor4 -> Tensor2)
    (linear_weight : Tensor2) (linear_bias : Tensor1)
    (head_weights : Tensor2 -> Tensor2 * Tensor2)
    (draw : string -> SiteDistribution -> Tensor2)
    (draw_image : string -> SiteDistribution -> Tensor4) (B : nat) :
  let im := __init__image b decoder_weights mean_weights encoder_weights
              linear_weight linear_bias head_weights in
  (forall d, has_shape2 (draw "z"%string d) B (latent_dim b)) ->
  (forall name d, name <> "z"%string -> has_shape2 (draw name d) B 1) ->
  let m := run_program draw draw_image (model self im) in
  let '(x, z, age, sex, ventricle_volume, brain_volume) := fst m in
  let latent :=
    cat1_all
      [z;
       inv_tensor (age_flow_constraint_transforms self) age;
       inv_tensor (ventricle_volume_flow_constraint_transforms self)
                  ventricle_volume;
       inv_tensor (brain_volume_flow_constraint_transforms self)
                  brain_volume] in
  has_shape2 latent B (decoder_latent_dim (decoder im)) /\
  option_map rec_dist (record_at "x" (snd m)) =
    Some (Pixels
            (TransformedDistributionI
               (to_eventI (NormalI (x_base_loc b) (x_base_scale b)) 3)
               (ComposeTransformI
                  [AffineTransformI
                     (conv2d (decoder_mean im)
                             (decoder_forward (decoder im) latent))
                     (exp (decoder_logstd im)) 3;
                   _get_preprocess_transforms b]))) /\
  0 < exp (decoder_logstd im).
Proof.
  cbv zeta. intros Hz Hcov.
  cbn [model pgm_model lift and_then run_program fst snd record_at rec_name
       rec_dist option_map String.eqb Ascii.eqb Bool.eqb].
  split; [| split; [reflexivity | apply exp_pos]].
  cbn [__init__image decoder decoder_latent_dim].
  apply has_shape2_cat1_four.
  - apply Hz.
  - apply has_shape2_pointwise, Hcov. discriminate.
  - apply has_shape2_pointwise, Hcov. discriminate.
  - apply has_shape2_pointwise, Hcov. discriminate.
Qed.


(** ** The further properties at concrete inputs *)

Lemma shape_x_1x1 : has_shape2 Demo.x_1x1 1 1.
Proof. repeat split; repeat constructor. Qed.

Lemma shape_x_2x1 : has_shape2 Demo.x_2x1 2 1.
Proof. repeat split; repeat constructor. Qed.

Lemma shape_r_2x2 : has_shape2 Demo.r_2x2 2 2.
Proof. repeat split; repeat constructor. Qed.

Lemma shape_demo_stats :
  stats_shape (E := Demo.engine)
    (Demo.eta1_2x1, Demo.eta2_2x1x1, Demo.log_norm2) 2 1.
Proof. repeat split; repeat constructor. Qed.

Lemma simplex_r_2x2 : rows_on_simplex Demo.r_2x2.
Proof.
  unfold rows_on_simplex, Demo.r_2x2. cbn [rows].
  repeat constructor; simpl; lra.
Qed.

Lemma e_step_entries_in_unit_interval_witness :
  has_shape2 Demo.x_2x1 2 1 /\
  has_shape1 (concentration (mkDirichlet Demo.alpha2)) 2 /\
  stats_shape (E := Demo.engine)
    (Demo.eta1_2x1, Demo.eta2_2x1x1, Demo.log_norm2) 2 1 /\
  all_entries (fun a => 0 < a <= 1)
    (e_step Demo.x_2x1 (mkDirichlet Demo.alpha2)
            (Demo.eta1_2x1, Demo.eta2_2x1x1, Demo.log_norm2)).
Proof.
  split; [exact shape_x_2x1 |]. split; [reflexivity |].
  split; [exact shape_demo_stats |].
  exact (e_step_entries_in_unit_interval
           (E := Demo.engine) Demo.x_2x1 (mkDirichlet Demo.alpha2)
           (Demo.eta1_2x1, Demo.eta2_2x1x1, Demo.log_norm2) 2 1 2
           shape_x_2x1 eq_refl shape_demo_stats).
Defined.

Lemma m_step_total_concentration_witness :
  has_shape1 (concentration (mkDirichlet Demo.alpha2)) 2 /\
  has_shape2 Demo.r_2x2 2 2 /\
  rows_on_simplex Demo.r_2x2 /\
  sum (concentration
         (fst (m_step Demo.x_2x1 Demo.r_2x2 (mkDirichlet Demo.alpha2)
                      (Demo.eta1_2x1, Demo.eta2_2x1x1, Demo.log_norm2)))) =
  sum Demo.alpha2 + INR 2.
Proof.
  split; [reflexivity |]. split; [exact shape_r_2x2 |].
  split; [exact simplex_r_2x2 |].
  exact (m_step_total_concentration
           (E := Demo.engine) Demo.x_2x1 Demo.r_2x2 (mkDirichlet Demo.alpha2)
           (Demo.eta1_2x1, Demo.eta2_2x1x1, Demo.log_norm2) 2 2
           eq_refl shape_r_2x2 simplex_r_2x2).
Defined.

Lemma nonneg_r_2x2 : all_entries (fun a => 0 <= a) Demo.r_2x2.
Proof. unfold all_entries, Demo.r_2x2. cbn [rows]. repeat constructor; lra. Qed.

Lemma m_step_concentration_grows_witness :
  has_shape1 (concentration (mkDirichlet Demo.alpha2)) 2 /\
  has_shape2 Demo.r_2x2 2 2 /\
  all_entries (fun a => 0 <= a) Demo.r_2x2 /\
  has_shape1
    (concentration
       (fst (m_step Demo.x_2x1 Demo.r_2x2 (mkDirichlet Demo.alpha2)
                    (Demo.eta1_2x1, Demo.eta2_2x1x1, Demo.log_norm2)))) 2.
Proof.
  split; [reflexivity |]. split; [exact shape_r_2x2 |].
  split; [exact nonneg_r_2x2 |].
  exact (proj1 (m_step_concentration_grows
                  (E := Demo.engine) Demo.x_2x1 Demo.r_2x2
                  (mkDirichlet Demo.alpha2)
                  (Demo.eta1_2x1, Demo.eta2_2x1x1, Demo.log_norm2) 2 2
                  eq_refl shape_r_2x2 nonneg_r_2x2)).
Defined.

Lemma shape_r_1x2 : has_shape2 DemoMore.r_1x2 1 2.
Proof. repeat split; repeat constructor. Qed.

Lemma m_step_concentration_by_batches_witness :
  has_shape1 (concentration (mkDirichlet Demo.alpha2)) 2 /\
  has_shape2 Demo.r_2x2 2 2 /\ has_shape2 DemoMore.r_1x2 1 2 /\
  concentration
    (fst (m_step (cat0 Demo.x_2x1 Demo.x_1x1) (cat0 Demo.r_2x2 DemoMore.r_1x2)
                 (mkDirichlet Demo.alpha2)
                 (Demo.eta1_2x1, Demo.eta2_2x1x1, Demo.log_norm2))) =
  concentration
    (fst (m_step Demo.x_1x1 DemoMore.r_1x2
            (fst (m_step Demo.x_2x1 Demo.r_2x2 (mkDirichlet Demo.alpha2)
                         (Demo.eta1_2x1, Demo.eta2_2x1x1, Demo.log_norm2)))
            (Demo.eta1_2x1, Demo.eta2_2x1x1, Demo.log_norm2))).
Proof.
  split; [reflexivity |]. split; [exact shape_r_2x2 |].
  split; [exact shape_r_1x2 |].
  exact (m_step_concentration_by_batches
           (E := Demo.engine) Demo.x_2x1 Demo.x_1x1 Demo.r_2x2 DemoMore.r_1x2
           (mkDirichlet Demo.alpha2)
           (Demo.eta1_2x1, Demo.eta2_2x1x1, Demo.log_norm2)
           (Demo.eta1_2x1, Demo.eta2_2x1x1, Demo.log_norm2)
           (Demo.eta1_2x1, Demo.eta2_2x1x1, Demo.log_norm2) 2 1 2
           eq_refl shape_r_2x2 shape_r_1x2).
Defined.

Lemma e_step_by_batches_witness :
  has_shape2 Demo.x_2x1 2 1 /\ has_shape2 Demo.x_1x1 1 1 /\
  e_step (cat0 Demo.x_2x1 Demo.x_1x1) (mkDirichlet Demo.alpha2)
         (Demo.eta1_2x1, Demo.eta2_2x1x1, Demo.log_norm2) =
  cat0 (e_step Demo.x_2x1 (mkDirichlet Demo.alpha2)
               (Demo.eta1_2x1, Demo.eta2_2x1x1, Demo.log_norm2))
       (e_step Demo.x_1x1 (mkDirichlet Demo.alpha2)
               (Demo.eta1_2x1, Demo.eta2_2x1x1, Demo.log_norm2)).
Proof.
  split; [exact shape_x_2x1 |]. split; [exact shape_x_1x1 |].
  exact (e_step_by_batches
           (E := Demo.engine) Demo.x_2x1 Demo.x_1x1 (mkDirichlet Demo.alpha2)
           (Demo.eta1_2x1, Demo.eta2_2x1x1, Demo.log_norm2) 2 1 1
           shape_x_2x1 shape_x_1x1).
Defined.

Lemma vem_loop_keeps_responsibilities_witness :
  (1 <= 2)%nat /\ (1 <= 3)%nat /\
  has_shape2 Demo.x_2x1 2 1 /\ has_shape2 Demo.r_2x2 2 2 /\
  rows_on_simplex
    (r_nk (vem_loop Demo.x_2x1 (spec_init 2 1) 3
             (VemLocals Demo.r_2x2 None None))).
Proof.
  assert (HK : (1 <= 2)%nat) by lia. assert (Hn : (1 <= 3)%nat) by lia.
  split; [exact HK |]. split; [exact Hn |].
  split; [exact shape_x_2x1 |]. split; [exact shape_r_2x2 |].
  exact (proj2 (vem_loop_keeps_responsibilities
                  (E := Demo.engine) Demo.x_2x1 Demo.r_2x2 2 1 2 3
                  HK Hn shape_x_2x1 shape_r_2x2)).
Defined.

Lemma run_vem_posterior_mass_witness :
  (1 <= 2)%nat /\ (2 <= 2)%nat /\ has_shape2 Demo.x_2x1 2 1 /\
  exists mp cp,
    run_vem Demo.x_2x1 2 2 0%nat = (Ok (mp, cp), 1%nat) /\
    sum (concentration mp) = sum (repeat (0.05 / INR 2) 2) + INR 2.
Proof.
  assert (HK : (1 <= 2)%nat) by lia. assert (Hn : (2 <= 2)%nat) by lia.
  split; [exact HK |]. split; [exact Hn |]. split; [exact shape_x_2x1 |].
  destruct (run_vem_posterior_mass
              (E := Demo.engine) Demo.x_2x1 2 1 2 2 0%nat HK Hn shape_x_2x1)
    as (mp & cp & Hrun & _ & _ & Hmass).
  exists mp, cp. split; [exact Hrun | exact Hmass].
Defined.


Lemma compose_inverse_undoes_call_witness :
  Forall (fun p => forall u, inv p (call p u) = u)
         [AffineTransform 0 1; ExpTransform] /\
  inv (ComposeTransform [AffineTransform 0 1; ExpTransform])
      (call (ComposeTransform [AffineTransform 0 1; ExpTransform]) 2) = 2.
Proof.
  assert (Hparts : Forall (fun p => forall u, inv p (call p u) = u)
                          [AffineTransform 0 1; ExpTransform]).
  { repeat constructor; intros u; simpl; [field | apply ln_exp]. }
  split; [exact Hparts |].
  exact (compose_inverse_undoes_call
           [AffineTransform 0 1; ExpTransform] Hparts 2).
Defined.

Lemma volume_constraints_round_trip_witness :
  0 < 1 /\
  call (ventricle_volume_flow_constraint_transforms Demo.visem)
       (inv (ventricle_volume_flow_constraint_transforms Demo.visem) 1) = 1 /\
  call (brain_volume_flow_constraint_transforms Demo.visem)
       (inv (brain_volume_flow_constraint_transforms Demo.visem) 1) = 1.
Proof.
  assert (Hpos : 0 < 1) by lra. split; [exact Hpos |].
  destruct (volume_constraints_round_trip
              Demo.base0 Demo.identity_spline (fun _ => []) (fun _ => [])
              0 1 Hpos) as ((_ & Hv & _) & (_ & Hb & _)).
  split; [exact Hv | exact Hb].
Defined.

Lemma age_flow_round_trip_witness :
  (forall v, spline_inv Demo.identity_spline
               (spline_call Demo.identity_spline v) = v) /\
  (forall v, spline_call Demo.identity_spline
               (spline_inv Demo.identity_spline v) = v) /\
  0 < 1 /\
  inv (age_flow_transforms Demo.visem)
      (call (age_flow_transforms Demo.visem) 0) = 0 /\
  call (age_flow_transforms Demo.visem)
       (inv (age_flow_transforms Demo.visem) 1) = 1.
Proof.
  assert (H1 : forall v, spline_inv Demo.identity_spline
                           (spline_call Demo.identity_spline v) = v)
    by reflexivity.
  assert (H2 : forall v, spline_call Demo.identity_spline
                           (spline_inv Demo.identity_spline v) = v)
    by reflexivity.
  assert (Hpos : 0 < 1) by lra.
  split; [exact H1 |]. split; [exact H2 |]. split; [exact Hpos |].
  exact (age_flow_round_trip
           Demo.base0 Demo.identity_spline (fun _ => []) (fun _ => [])
           0 1 H1 H2 Hpos).
Defined.

Lemma age_flow_increasing_witness :
  (forall a c, a < c -> spline_call Demo.identity_spline a <
                        spline_call Demo.identity_spline c) /\
  0 < 1 /\
  0 < call (age_flow_transforms Demo.visem) 0 /\
  call (age_flow_transforms Demo.visem) 0 <
  call (age_flow_transforms Demo.visem) 1.
Proof.
  assert (Hmono : forall a c, a < c -> spline_call Demo.identity_spline a <
                                        spline_call Demo.identity_spline c)
    by (intros a c Hac; exact Hac).
  assert (Hlt : 0 < 1) by lra.
  split; [exact Hmono |]. split; [exact Hlt |].
  exact (age_flow_increasing
           Demo.base0 Demo.identity_spline (fun _ => []) (fun _ => [])
           0 1 Hmono Hlt).
Defined.

Lemma brain_volume_independent_of_ventricle_volume_witness :
  (forall name d, name <> "ventricle_volume"%string ->
                  Demo.draw_zero name d = DemoMore.draw_other_ventricle name d) /\
  Demo.draw_zero "ventricle_volume" (Bernoulli []) <>
  DemoMore.draw_other_ventricle "ventricle_volume" (Bernoulli []) /\
  dist_at "brain_volume" (snd (run Demo.draw_zero (pgm_model Demo.visem))) =
  dist_at "brain_volume"
          (snd (run DemoMore.draw_other_ventricle (pgm_model Demo.visem))).
Proof.
  assert (Hsame : forall name d, name <> "ventricle_volume"%string ->
            Demo.draw_zero name d = DemoMore.draw_other_ventricle name d).
  { intros name d Hne. unfold Demo.draw_zero, DemoMore.draw_other_ventricle.
    destruct (String.eqb_spec name "ventricle_volume");
      [contradiction | reflexivity]. }
  split; [exact Hsame |]. split.
  - unfold Demo.draw_zero, DemoMore.draw_other_ventricle. simpl. intros Heq.
    injection Heq as Heq. lra.
  - exact (proj1 (brain_volume_independent_of_ventricle_volume
                    Demo.visem Demo.draw_zero DemoMore.draw_other_ventricle
                    Hsame)).
Defined.


Lemma image_independent_of_sex_given_volumes_witness :
  DemoMore.draw_site "sex" (Covariate (to_event (Bernoulli [0]) 1)) <>
  DemoMore.draw_site_other_sex "sex" (Covariate (to_event (Bernoulli [0]) 1)) /\
  option_map rec_dist
    (record_at "x"
       (snd (run_program DemoMore.draw_site DemoMore.draw_no_image
               (model Demo.visem DemoMore.image_side)))) =
  option_map rec_dist
    (record_at "x"
       (snd (run_program DemoMore.draw_site_other_sex DemoMore.draw_no_image
               (model Demo.visem DemoMore.image_side)))).
Proof.
  split.
  - unfold DemoMore.draw_site_other_sex, DemoMore.draw_site. simpl.
    intros Heq. injection Heq as Heq. lra.
  - apply (image_independent_of_sex_given_volumes
             Demo.visem DemoMore.image_side
             DemoMore.draw_site DemoMore.draw_site_other_sex
             DemoMore.draw_no_image DemoMore.draw_no_image).
    intros name [<- | [<- | [<- | [<- | []]]]]; reflexivity.
Defined.

Lemma decoder_input_has_declared_width_witness :
  (forall d, has_shape2 (DemoMore.draw_site "z" d) 1 2) /\
  (forall name d, name <> "z"%string ->
                  has_shape2 (DemoMore.draw_site name d) 1 1) /\
  decoder_latent_dim (decoder DemoMore.image_side) = 5%nat /\
  has_shape2
    (cat1_all [T2 2 [[0; 0]];
               inv_tensor (age_flow_constraint_transforms Demo.visem)
                          (T2 1 [[1]]);
               inv_tensor (ventricle_volume_flow_constraint_transforms Demo.visem)
                          (T2 1 [[1]]);
               inv_tensor (brain_volume_flow_constraint_transforms Demo.visem)
                          (T2 1 [[1]])]) 1 5.
Proof.
  assert (Hz : forall d, has_shape2 (DemoMore.draw_site "z" d) 1 2)
    by (intros d; repeat split; repeat constructor).
  assert (Hcov : forall name d, name <> "z"%string ->
                   has_shape2 (DemoMore.draw_site name d) 1 1).
  { intros name d Hne. unfold DemoMore.draw_site.
    destruct (String.eqb_spec name "z"); [contradiction |].
    repeat split; repeat constructor. }
  split; [exact Hz |]. split; [exact Hcov |]. split; [reflexivity |].
  exact (proj1 (decoder_input_has_declared_width
                  Demo.visem DemoMore.attributes
                  (fun _ => DemoMore.image_1)
                  {| conv_weight := 1; conv_bias := 0 |}
                  (fun _ => T2 2 [[0; 0]]) (T2 5 []) [] (fun h => (h, h))
                  DemoMore.draw_site DemoMore.draw_no_image 1 Hz Hcov)).
Defined.

